(** * Route-to-asset resolution of react-pwa: [utils/asset-extract.ts]

    A shallow embedding of the asset resolver ([extractFiles] and the
    functions it calls) and of the style-content fetcher
    ([extractStylesWithContent]), followed by the properties checked
    against the prose specification.

    Conventions of the embedding.
    - A JavaScript string is a [string]; the characters the code inspects
      ('.', '/', '_', '|', 'h', 't', 'p') are ASCII.
    - A value of type [string | number] used as an identifier is a
      [ChunkId]; numbers are the integers a persisted chunks map holds.
      [===] and the membership test of a JavaScript [Set] coincide on
      them with Leibniz equality.
    - An optional field [f?: T] is an [option T]; [x ?? d] is [default d x].
    - Mutable accumulators are passed explicitly ([Acc]).
    - [parse(url).pathname] of [node:url] is a parameter of the development
      ([pathname]). *)

From stdpp Require Import gmap strings list.
From Stdlib Require Import Ascii ZArith Lia.

#[local] Set Warnings "-clear-no-such-hyp".

Open Scope string_scope.
Open Scope list_scope.
Open Scope Z_scope.

(** ** JavaScript string primitives *)

Module JsString.

(** [s.length], counted as a natural number. *)
Fixpoint length (s : string) : nat :=
  match s with
  | EmptyString => O
  | String _ s' => S (length s')
  end.

(** [s + t], and the template literal that splices [s] before [t]. *)
Fixpoint append (s t : string) : string :=
  match s with
  | EmptyString => t
  | String a s' => String a (append s' t)
  end.

(** [s.startsWith(t)]. *)
Fixpoint startsWith (s t : string) {struct t} : bool :=
  match t with
  | EmptyString => true
  | String b t' =>
      match s with
      | EmptyString => false
      | String a s' => bool_decide (a = b) && startsWith s' t'
      end
  end.

(** The suffix of [s] that starts at offset [n]. *)
Fixpoint drop (n : nat) (s : string) : string :=
  match n, s with
  | O, _ => s
  | S _, EmptyString => EmptyString
  | S n', String _ s' => drop n' s'
  end.

(** [s.endsWith(t)]: the last [t.length] characters of [s] are [t]. *)
Definition endsWith (s t : string) : bool :=
  bool_decide (length t ≤ length s)%nat
  && bool_decide (drop (length s - length t) s = t).

(** [s.indexOf(t)] scanning from offset [i]: the first offset at which
    [t] occurs, [-1] when there is none. *)
Fixpoint indexOf_from (i : Z) (s t : string) : Z :=
  if startsWith s t then i
  else match s with
       | EmptyString => -1
       | String _ s' => indexOf_from (i + 1) s' t
       end.

Definition indexOf (s t : string) : Z := indexOf_from 0 s t.

(** Character-wise image of a string. *)
Fixpoint map (f : ascii → ascii) (s : string) : string :=
  match s with
  | EmptyString => EmptyString
  | String a s' => String (f a) (map f s')
  end.

(** [s] without its leading run of the character [c]. *)
Fixpoint dropLeading (c : ascii) (s : string) : string :=
  match s with
  | EmptyString => EmptyString
  | String a s' => if bool_decide (a = c) then dropLeading c s' else s
  end.

(** [s] without its trailing run of the character [c]. *)
Fixpoint dropTrailing (c : ascii) (s : string) : string :=
  match s with
  | EmptyString => EmptyString
  | String a s' =>
      match dropTrailing c s' with
      | EmptyString => if bool_decide (a = c) then EmptyString
                       else String a EmptyString
      | r => String a r
      end
  end.

(** [n] copies of the character [c]. *)
Fixpoint replicate (n : nat) (c : ascii) : string :=
  match n with
  | O => EmptyString
  | S n' => String c (replicate n' c)
  end.

(** The character at offset [i], if any. *)
Fixpoint charAt (i : nat) (s : string) {struct s} : option ascii :=
  match s, i with
  | EmptyString, _ => None
  | String a _, O => Some a
  | String _ s', S i' => charAt i' s'
  end.

(** The last character, if any. *)
Fixpoint last (s : string) : option ascii :=
  match s with
  | EmptyString => None
  | String a EmptyString => Some a
  | String _ s' => last s'
  end.

(** A string is truthy when it is not empty. *)
Definition truthy (s : string) : bool := negb (bool_decide (s = "")).

End JsString.

(** ** Data model *)

(** [string | number] as used for chunk and module identifiers. *)
Inductive ChunkId : Type :=
  | IdNum (n : Z)
  | IdStr (s : string).

#[global] Instance ChunkId_eq_dec : EqDecision ChunkId.
Proof. solve_decision. Defined.

#[global] Instance ChunkId_countable : Countable ChunkId.
Proof.
  refine (inj_countable'
            (λ i, match i with IdNum n => inl n | IdStr s => inr s end)
            (λ x, match x with inl n => IdNum n | inr s => IdStr s end) _).
  by intros [].
Defined.

(** One entry of [ChunksMap['chunks']]. *)
Record Chunk : Type := mkChunk {
  names : option (list string);
  id : option ChunkId;
  files : option (list string);
  parents : option (list ChunkId);
  children : option (list ChunkId);
  reasons : option (list string);
  reasonsStr : option string;
  reasonModules : option (list ChunkId)
}.

Record ChunksMap : Type := mkChunksMap {
  assetsByChunkName : option (gmap string (list string));
  chunks : list Chunk
}.

(** The two annotations of [LazyRouteMatch['route']] the resolver reads. *)
Record LazyRoute : Type := mkLazyRoute {
  webpack : option ChunkId;
  module : option string
}.

Record LazyRouteMatch : Type := mkLazyRouteMatch {
  route : LazyRoute
}.

(** [PositionedFiles]: one batch of files pushed by a resolution group. *)
Record PositionedFiles : Type := mkPositionedFiles {
  batch : list string
}.

(** The two mutable accumulators of [extractFiles]. *)
Record Acc : Type := mkAcc {
  positionedFiles : list PositionedFiles;
  extractedAssets : gset ChunkId
}.

Infix "^^" := JsString.append (at level 60, right associativity).

(** ** The resolver *)

(** [f(x) !== -1] for an optionally chained call [f?.(x)]: the chain
    yields [undefined] ([None]) when a link is absent, and
    [undefined !== -1] holds. *)
Definition notMinusOne (r : option Z) : bool :=
  match r with
  | Some i => negb (i =? -1)
  | None => true
  end.

(** [Array.prototype.indexOf] on an array of identifiers. *)
Fixpoint Array_indexOf_from (i : Z) (l : list ChunkId) (x : ChunkId) : Z :=
  match l with
  | [] => -1
  | y :: l' => if bool_decide (y = x) then i
               else Array_indexOf_from (i + 1) l' x
  end.

Definition Array_indexOf (l : list ChunkId) (x : ChunkId) : Z :=
  Array_indexOf_from 0 l x.

(** [chunk?.reasonsStr?.indexOf?.(needle)]. *)
Definition reasonsStrIndexOf (chunk : Chunk) (needle : string) : option Z :=
  (λ s, JsString.indexOf s needle) <$> reasonsStr chunk.

(** [chunk?.reasonModules?.indexOf?.(webpackId)]. *)
Definition reasonModulesIndexOf (chunk : Chunk) (webpackId : ChunkId)
  : option Z :=
  (λ l, Array_indexOf l webpackId) <$> reasonModules chunk.

(** [prependForwardSlash]. *)
Definition prependForwardSlash (file : string) : string :=
  if JsString.startsWith file "http" then file
  else if JsString.startsWith file "/" then file
       else "/" ^^ file.

(** [[...new Set(l)]]: the distinct elements of [l] in insertion order. *)
Definition Set_add (acc : list string) (x : string) : list string :=
  if bool_decide (x ∈ acc) then acc else acc ++ [x].

Definition spreadSet (l : list string) : list string :=
  fold_left Set_add l [].

(** [positionedFiles.push(p)]. *)
Definition push (st : Acc) (p : PositionedFiles) : Acc :=
  mkAcc (positionedFiles st ++ [p]) (extractedAssets st).

(** [l.forEach(f)] for a callback that updates the accumulators and may
    fail to return ([None]). *)
Definition forEachM {A S : Type} (f : A → S → option S)
  : list A → S → option S :=
  fix go (l : list A) (s : S) : option S :=
    match l with
    | [] => Some s
    | x :: l' => match f x s with
                 | Some s' => go l' s'
                 | None => None
                 end
    end.

(** The canonical chunk id of a string [webpack] annotation:
    [webpackId.replace(/[./]/gi, '_').replace(/^_+|_+$/g, '')]. *)
Definition replaceDotSlash (a : ascii) : ascii :=
  if bool_decide (a = "."%char ∨ a = "/"%char) then "_"%char else a.

Definition canonicalId (webpackId : string) : string :=
  JsString.dropTrailing "_"
    (JsString.dropLeading "_" (JsString.map replaceDotSlash webpackId)).

Section Resolver.

(** [parse(url).pathname] of [node:url]; [None] when the parser throws or
    the URL has no path. *)
Variable pathname : string → option string.

Definition hasExtension (url ext : string) : bool :=
  match pathname url with
  | Some p => JsString.endsWith p ext
  | None => false
  end.

Definition filesFromChunks (cs : list Chunk) (ext : string) : list string :=
  concat
    (List.map
       (λ chunk,
          List.filter (λ file, hasExtension file ext)
            (default [] (files chunk)))
       cs).

(** [addById]. The recursion of the source is not structural: [fuel]
    bounds its depth and [None] is the answer of a call that ran out of
    it. *)
Fixpoint addById (fuel : nat) (webpackId : ChunkId) (chunksMap : ChunksMap)
    (ext : string) (st : Acc) : option Acc :=
  match fuel with
  | O => None
  | S fuel' =>
      if bool_decide (webpackId ∈ extractedAssets st) then Some st
      else
        let st := mkAcc (positionedFiles st)
                    ({[webpackId]} ∪ extractedAssets st) in
        match List.find (λ chunk, bool_decide (id chunk = Some webpackId))
                (chunks chunksMap) with
        | Some idChunk =>
            let st :=
              push st (mkPositionedFiles (filesFromChunks [idChunk] ext)) in
            forEachM
              (λ childId st,
                 if bool_decide (childId ≠ webpackId)
                 then addById fuel' childId chunksMap ext st
                 else Some st)
              (default [] (children idChunk)) st
        | None => Some st
        end
  end.

(** A recursion depth that every traversal of [chunksMap] stays below
    (see [addById_budget]). *)
Definition budget (chunksMap : ChunksMap) : nat :=
  S (List.length (chunks chunksMap)).

(** [chunksMap.assetsByChunkName?.main ?? []]. *)
Definition mainAssets (chunksMap : ChunksMap) : list string :=
  default [] (assetsByChunkName chunksMap ≫= (λ m, m !! "main")).

(** Group 1: the files of the [main] entry. *)
Definition mainGroup (chunksMap : ChunksMap) (ext : string) (st : Acc) : Acc :=
  let filesFromMain :=
    List.filter (λ file, hasExtension file ext) (mainAssets chunksMap) in
  if bool_decide (List.length filesFromMain ≠ O)
  then push st (mkPositionedFiles
                  (List.filter (λ file, hasExtension file ext)
                     (mainAssets chunksMap)))
  else st.

(** Group 2: the chunks that depend on the project or on the framework,
    or on nothing. *)
Definition isCurrentProjectChunk (chunk : Chunk) : bool :=
  notMinusOne (reasonsStrIndexOf chunk "@currentProject")
  || notMinusOne (reasonsStrIndexOf chunk "@reactpwa")
  || bool_decide (reasonsStr chunk = Some "").

Definition currentProjectChunks (chunksMap : ChunksMap) : list Chunk :=
  List.filter isCurrentProjectChunk (chunks chunksMap).

Definition coreGroup (chunksMap : ChunksMap) (ext : string) (st : Acc) : Acc :=
  let filesFromCurrentProjectChunks :=
    filesFromChunks (currentProjectChunks chunksMap) ext in
  if bool_decide (List.length filesFromCurrentProjectChunks ≠ O)
  then push st (mkPositionedFiles
                  (filesFromChunks (currentProjectChunks chunksMap) ext))
  else st.

(** [cs.forEach((chunk) => positionedFiles.push({files: ...}))]. *)
Definition pushEach (cs : list Chunk) (ext : string) (st : Acc) : Acc :=
  fold_left
    (λ st chunk, push st (mkPositionedFiles (filesFromChunks [chunk] ext)))
    cs st.

(** Group 3: the chunks one of whose reasons is the module of the route. *)
Definition moduleMatches (m : string) (chunk : Chunk) : bool :=
  notMinusOne (reasonsStrIndexOf chunk ("||" ^^ m ^^ "||")).

Definition moduleGroupChunks (m : string) (chunksMap : ChunksMap)
  : list Chunk :=
  List.filter (moduleMatches m) (chunks chunksMap).

Definition moduleGroup (matchedRoute : LazyRouteMatch) (chunksMap : ChunksMap)
    (ext : string) (st : Acc) : Acc :=
  match module (route matchedRoute) with
  | Some m =>
      if JsString.truthy m
      then pushEach (moduleGroupChunks m chunksMap) ext st
      else st
  | None => st
  end.

(** Group 4: the chunks one of whose reason modules is the numeric id of
    the route. *)
Definition numericGroup (matchedRoute : LazyRouteMatch)
    (chunksMap : ChunksMap) (ext : string) (st : Acc) : Acc :=
  match webpack (route matchedRoute) with
  | Some (IdNum n) =>
      if bool_decide (n ≠ 0)
      then pushEach
             (List.filter
                (λ chunk, notMinusOne (reasonModulesIndexOf chunk (IdNum n)))
                (chunks chunksMap))
             ext st
      else st
  | _ => st
  end.

(** Group 5: the chunk named by the string id of the route, and its
    descendants. *)
Definition stringGroup (matchedRoute : LazyRouteMatch)
    (chunksMap : ChunksMap) (ext : string) (st : Acc) : option Acc :=
  match webpack (route matchedRoute) with
  | Some (IdStr s) =>
      if JsString.truthy s
      then addById (budget chunksMap) (IdStr (canonicalId s)) chunksMap ext st
      else Some st
  | _ => Some st
  end.

(** The body of [matchedRoutes.forEach]. *)
Definition routeStep (chunksMap : ChunksMap) (ext : string)
    (matchedRoute : LazyRouteMatch) (st : Acc) : option Acc :=
  stringGroup matchedRoute chunksMap ext
    (numericGroup matchedRoute chunksMap ext
       (moduleGroup matchedRoute chunksMap ext st)).

(** The flattened batches, before deduplication. *)
Definition flatFiles (st : Acc) : list string :=
  concat (List.map batch (positionedFiles st)).

(** [extractFiles]. [None] for [matchedRoutes] is a falsy argument;
    [None] as a result is a traversal that exceeded [budget]. *)
Definition extractFiles (matchedRoutes : option (list LazyRouteMatch))
    (chunksMap : ChunksMap) (ext : string) : option (list string) :=
  match matchedRoutes with
  | None => Some []
  | Some routes =>
      let st := mainGroup chunksMap ext (mkAcc [] ∅) in
      let st := coreGroup chunksMap ext st in
      match forEachM (routeStep chunksMap ext) routes st with
      | Some st =>
          Some (List.map prependForwardSlash (spreadSet (flatFiles st)))
      | None => None
      end
  end.

Definition extractStyles (matchedRoutes : option (list LazyRouteMatch))
    (chunksMap : ChunksMap) : option (list string) :=
  extractFiles matchedRoutes chunksMap ".css".

Definition extractScripts (matchedRoutes : option (list LazyRouteMatch))
    (chunksMap : ChunksMap) : option (list string) :=
  extractFiles matchedRoutes chunksMap ".js".

End Resolver.

(** A reading of [parse(url).pathname] for relative asset names: the part
    of the name before the first '?' or '#', and no path when that part is
    empty. *)
Fixpoint beforeQueryOrHash (s : string) : string :=
  match s with
  | EmptyString => EmptyString
  | String a s' =>
      if bool_decide (a = "?"%char ∨ a = "#"%char) then EmptyString
      else String a (beforeQueryOrHash s')
  end.

Definition relativePathname (url : string) : option string :=
  match beforeQueryOrHash url with
  | EmptyString => None
  | p => Some p
  end.

(** ** The style-content fetcher *)

(** The rejection of [getCssFileContent]: [new Error('CSS file not found!')]. *)
Inductive Rejection : Type :=
  | CssFileNotFound.

(** One element of the array [extractStylesWithContent] resolves to. *)
Record StyleWithContent : Type := mkStyleWithContent {
  href : string;
  content : string
}.

(** The outcome of a promise once settled. *)
Inductive Settled (A : Type) : Type :=
  | Fulfilled (a : A)
  | Rejected (e : Rejection).
Arguments Fulfilled {A} a.
Arguments Rejected {A} e.

(** [Promise.all]: fulfilled with every value when every promise is
    fulfilled, rejected as soon as one is. *)
Fixpoint Promise_all {A : Type} (ps : list (Settled A)) : Settled (list A) :=
  match ps with
  | [] => Fulfilled []
  | Rejected e :: _ => Rejected e
  | Fulfilled a :: ps' =>
      match Promise_all ps' with
      | Fulfilled l => Fulfilled (a :: l)
      | Rejected e => Rejected e
      end
  end.

Section Fetcher.

Variable pathname : string → option string.

(** The build directory: the content of [join(__dirname, 'build', cssFile)]
    when that file exists. *)
Variable disk : string → option string.

(** [getCssFileContent]. *)
Definition getCssFileContent (cssFile : string) : Settled string :=
  match disk cssFile with
  | Some cssContent => Fulfilled cssContent
  | None => Rejected CssFileNotFound
  end.

(** The callback mapped over [cssFiles]. Every callback runs up to its
    [await] before any continuation does, so each one consults the cache
    as it was when the call started. *)
Definition styleWithContent (cssContentMap : gmap string string)
    (cssFile : string) : Settled StyleWithContent :=
  match cssContentMap !! cssFile with
  | Some cached => Fulfilled (mkStyleWithContent cssFile cached)
  | None =>
      match getCssFileContent cssFile with
      | Fulfilled cssContent =>
          Fulfilled (mkStyleWithContent cssFile cssContent)
      | Rejected e => Rejected e
      end
  end.

(** The continuation of a callback after its [await]: it runs only when
    the file was read, and stores the content. *)
Definition storeContent (cssContentMap : gmap string string)
    (cache : gmap string string) (cssFile : string) : gmap string string :=
  match cssContentMap !! cssFile, getCssFileContent cssFile with
  | None, Fulfilled cssContent => <[cssFile := cssContent]> cache
  | _, _ => cache
  end.

(** [extractStylesWithContent] on the resolved paths: what the returned
    promise settles to, and [cssContentMap] once every callback is done. *)
Definition fetchStyles (cssContentMap : gmap string string)
    (cssFiles : list string)
  : Settled (list StyleWithContent) * gmap string string :=
  (Promise_all (List.map (styleWithContent cssContentMap) cssFiles),
   fold_left (storeContent cssContentMap) cssFiles cssContentMap).

(** [extractStylesWithContent]; [None] as for [extractFiles]. *)
Definition extractStylesWithContent (cssContentMap : gmap string string)
    (matchedRoutes : option (list LazyRouteMatch)) (chunksMap : ChunksMap)
  : option (Settled (list StyleWithContent) * gmap string string) :=
  fetchStyles cssContentMap <$> extractStyles pathname matchedRoutes chunksMap.

End Fetcher.

(** ** The canonical id as the specification words it *)

Definition isAlphanumeric (a : ascii) : bool :=
  let n := nat_of_ascii a in
  (bool_decide (48 ≤ n)%nat && bool_decide (n ≤ 57)%nat)
  || (bool_decide (65 ≤ n)%nat && bool_decide (n ≤ 90)%nat)
  || (bool_decide (97 ≤ n)%nat && bool_decide (n ≤ 122)%nat).

(** Every run of non-alphanumeric characters becomes one underscore. *)
Fixpoint collapseRuns (inRun : bool) (s : string) : string :=
  match s with
  | EmptyString => EmptyString
  | String a s' =>
      if isAlphanumeric a then String a (collapseRuns false s')
      else if inRun then collapseRuns true s'
           else String "_"%char (collapseRuns true s')
  end.

(** "Replace non-alphanumeric runs with underscore, trim leading/trailing
    underscores". *)
Definition specCanonicalId (webpackId : string) : string :=
  JsString.dropTrailing "_"
    (JsString.dropLeading "_" (collapseRuns false webpackId)).

(** ** The scenarios of the specification *)

(** Scenario A. *)
Definition chunkMain : Chunk :=
  mkChunk (Some ["main"]) (Some (IdNum 1)) (Some ["main.js"; "main.css"])
    None None None None None.

Definition scenarioA : ChunksMap :=
  mkChunksMap (Some {["main" := ["main.js"; "main.css"]]}) [chunkMain].

(** Scenario B. *)
Definition chunkA : Chunk :=
  mkChunk None (Some (IdStr "home_module")) (Some ["a.css"]) None (Some [])
    None (Some "") None.

Definition chunkB : Chunk :=
  mkChunk None (Some (IdNum 2)) (Some ["b.css"]) None
    (Some [IdStr "home_module"]) None (Some "") None.

Definition scenarioB : ChunksMap := mkChunksMap None [chunkA; chunkB].

Definition scenarioB' : ChunksMap := mkChunksMap None [chunkB; chunkA].

(** The accumulators after the traversal of scenario B from the id of
    chunk B. *)
Definition visitedFromB : Acc :=
  mkAcc [mkPositionedFiles ["b.css"]; mkPositionedFiles ["a.css"]]
    {[IdNum 2; IdStr "home_module"]}.

(** Scenario C, and a variant of it: the id and the child link are the
    string the canonical id is compared with, and the [reasonsStr] keeps
    the chunk out of the core group, so that its file can only come from
    the traversal. *)
Definition chunkC : Chunk :=
  mkChunk None (Some (IdNum 5)) (Some ["c.js"]) None (Some [IdNum 5])
    None None None.

Definition scenarioC : ChunksMap := mkChunksMap None [chunkC].

Definition chunkCstr : Chunk :=
  mkChunk None (Some (IdStr "5")) (Some ["c.js"]) None (Some [IdStr "5"])
    None (Some "||other||") None.

Definition scenarioCstr : ChunksMap := mkChunksMap None [chunkCstr].

(** Scenario D. *)
Definition chunkD : Chunk :=
  mkChunk None (Some (IdNum 7)) (Some ["d.js"]) None None None
    (Some "||Header||Footer||") None.

(** A route that carries the given annotations. *)
Definition routeWith (w : option ChunkId) (m : option string)
  : LazyRouteMatch :=
  mkLazyRouteMatch (mkLazyRoute w m).

(** A build directory that holds the style sheet of chunk A and nothing
    else. *)
Definition diskOnlyA (cssFile : string) : option string :=
  if bool_decide (cssFile = "/a.css") then Some "a{}" else None.

(** A map whose [main] entry lists one asset under two spellings. *)
Definition twoSpellings : ChunksMap :=
  mkChunksMap (Some {["main" := ["a.js"; "/a.js"]]}) [].

(** ** The main script *)

(** [extractMainScript]. *)
Definition extractMainScript (pathname : string → option string)
    (chunksMap : ChunksMap) : list string :=
  List.map prependForwardSlash
    (List.filter (λ file, hasExtension pathname file ".js")
       (mainAssets chunksMap)).

(** ** The chunk-graph extractor *)

(** What a reason of the compiler statistics holds in [userRequest] and
    in [moduleId]. *)
Inductive JsValue : Type :=
  | VUndefined
  | VNull
  | VNum (n : Z)
  | VStr (s : string).

#[global] Instance JsValue_eq_dec : EqDecision JsValue.
Proof. solve_decision. Defined.

(** [Boolean(v)]. *)
Definition truthyValue (v : JsValue) : bool :=
  match v with
  | VNum n => negb (n =? 0)
  | VStr s => JsString.truthy s
  | VUndefined | VNull => false
  end.

(** [typeof v === 'string'], with the string it then is. *)
Definition asString (v : JsValue) : option string :=
  match v with
  | VStr s => Some s
  | _ => None
  end.

(** A truthy value read as [string | number]. *)
Definition asChunkId (v : JsValue) : option ChunkId :=
  match v with
  | VNum n => Some (IdNum n)
  | VStr s => Some (IdStr s)
  | _ => None
  end.

(** The part of [stats.toJson()] the extractor reads. *)
Module Stats.

Record Reason : Type := mkReason {
  userRequest : JsValue;
  moduleId : JsValue
}.

Record Mod : Type := mkMod {
  reasons : option (list Reason)
}.

Record Chunk : Type := mkChunk {
  id : option ChunkId;
  names : option (list string);
  files : option (list string);
  parents : option (list ChunkId);
  children : option (list ChunkId);
  modules : option (list Mod)
}.

Record Json : Type := mkJson {
  chunks : option (list Chunk);
  assetsByChunkName : option (gmap string (list string))
}.

End Stats.

(** [[...new Set(l)]] for any kind of element. *)
Definition Set_addOf {A : Type} `{EqDecision A} (acc : list A) (x : A)
  : list A :=
  if bool_decide (x ∈ acc) then acc else acc ++ [x].

Definition spreadSetOf {A : Type} `{EqDecision A} (l : list A) : list A :=
  fold_left Set_addOf l [].

(** [l.join(sep)]. *)
Fixpoint join (sep : string) (l : list string) : string :=
  match l with
  | [] => ""
  | x :: l' =>
      match l' with
      | [] => x
      | _ :: _ => x ^^ sep ^^ join sep l'
      end
  end.

(** The values one field holds over all the reasons of all the modules of a
    chunk: [(asset?.modules ?? []).map((mod) => (mod?.reasons ?? [])
    .map(field)).flat()]. *)
Definition reasonValues (field : Stats.Reason → JsValue) (asset : Stats.Chunk)
  : list JsValue :=
  concat
    (List.map (λ md, List.map field (default [] (Stats.reasons md)))
       (default [] (Stats.modules asset))).

(** The [reasons] of a chunk: the distinct truthy user requests, those
    that are strings. *)
Definition collectReasons (asset : Stats.Chunk) : list string :=
  omap asString
    (spreadSetOf (List.filter truthyValue (reasonValues Stats.userRequest asset))).

(** The [reasonModules] of a chunk: the distinct truthy module ids. *)
Definition collectReasonModules (asset : Stats.Chunk) : list ChunkId :=
  omap asChunkId
    (spreadSetOf (List.filter truthyValue (reasonValues Stats.moduleId asset))).

(** The callback mapped over [stats.chunks]. *)
Definition extractChunk (asset : Stats.Chunk) : Chunk :=
  let reasons := collectReasons asset in
  let reasonModules := collectReasonModules asset in
  mkChunk (Stats.names asset) (Stats.id asset) (Stats.files asset)
    (Stats.parents asset) (Stats.children asset)
    (Some reasons) (Some (join "||" reasons)) (Some reasonModules).

(** [extractChunksMap]; [None] is [webpackStats?.toJson?.()] being
    nullish. *)
Definition extractChunksMap (webpackStats : option Stats.Json) : ChunksMap :=
  let chunks :=
    List.map extractChunk (default [] (webpackStats ≫= Stats.chunks)) in
  mkChunksMap
    (Some (default ∅ (webpackStats ≫= Stats.assetsByChunkName)))
    chunks.

(** ** The environment variables of a bundle ([webpack.ts]) *)

Section EnvVars.

(** The values of the variables are not inspected. *)
Context {V : Type}.

(** The fields of the handler options that [getFilteredEnvVars] reads. *)
Record HandlerOptions : Type := mkHandlerOptions {
  target : string;
  envVars : gmap string V
}.

(** [get isTargetServer()]. *)
Definition isTargetServer (options : HandlerOptions) : bool :=
  bool_decide (target options = "node").

(** [getFilteredEnvVars]. The loop runs over [Object.keys(envVars)], each
    key with the value [envVars] holds for it. *)
Definition getFilteredEnvVars (options : HandlerOptions) : gmap string V :=
  if isTargetServer options then envVars options
  else
    fold_left
      (λ (acc : gmap string V) (entry : string * V),
         if negb (JsString.startsWith entry.1 "_PRIVATE_")
         then <[entry.1 := entry.2]> acc
         else acc)
      (map_to_list (envVars options)) ∅.

End EnvVars.

Arguments HandlerOptions V : clear implicits.

(** ** The cache header of static files ([fastify-server.tsx]) *)

(** A number is truthy when it is not zero. *)
Definition truthyNumber (n : Z) : bool := negb (n =? 0).

(** [setHeaders], on the headers of the response. *)
Definition setHeaders (res : gmap string string) (pathname : string)
  : gmap string string :=
  if truthyNumber (JsString.indexOf pathname "/build/")
     && (JsString.indexOf pathname "sw.js" =? -1)
  then <["Cache-Control" := "public, max-age=31536000, immutable"]> res
  else res.

(** ** An example of compiler statistics *)

(** Compiler statistics with one chunk explained by three distinct
    requests, one of them reported twice and some reasons carrying no
    usable request or module id. *)
Definition statsExample : Stats.Json :=
  Stats.mkJson
    (Some
       [Stats.mkChunk (Some (IdNum 7)) (Some ["home"]) (Some ["home.js"])
          None None
          (Some
             [Stats.mkMod
                (Some
                   [Stats.mkReason (VStr "./app") (VNum 1);
                    Stats.mkReason (VStr "Header") (VNum 2);
                    Stats.mkReason VUndefined VNull]);
              Stats.mkMod None;
              Stats.mkMod
                (Some
                   [Stats.mkReason (VStr "Header") (VNum 2);
                    Stats.mkReason (VStr "") (VNum 0);
                    Stats.mkReason (VStr "Footer") (VStr "m3")])])])
    (Some {["main" := ["main.js"]]}).

(** The chunk extracted from it. *)
Definition extractedExample : Chunk :=
  mkChunk (Some ["home"]) (Some (IdNum 7)) (Some ["home.js"]) None None
    (Some ["./app"; "Header"; "Footer"]) (Some "./app||Header||Footer")
    (Some [IdNum 1; IdNum 2; IdStr "m3"]).

(** ** Notions used to state the properties *)

(** The identifiers borne by the chunks of a map. *)
Definition chunkIds (chunksMap : ChunksMap) : gset ChunkId :=
  list_to_set (omap id (chunks chunksMap)).

(** [st'] is [st] after some batches were pushed and some ids marked as
    visited, no more batches than ids. *)
Definition extends (st st' : Acc) : Prop :=
  ∃ added,
    positionedFiles st' = positionedFiles st ++ added
    ∧ extractedAssets st ⊆ extractedAssets st'
    ∧ (List.length added + size (extractedAssets st)
       ≤ size (extractedAssets st'))%nat.

(** [st'] is [st] after some batches were pushed. *)
Definition grows (st st' : Acc) : Prop :=
  ∃ added, positionedFiles st' = positionedFiles st ++ added.

(** Every file name a map mentions. *)
Definition allFiles (chunksMap : ChunksMap) : list string :=
  mainAssets chunksMap
  ++ concat (List.map (λ c, default [] (files c)) (chunks chunksMap)).

(** [needle] occurs in [s]. *)
Definition occursIn (needle s : string) : Prop :=
  ∃ pre suf, s = pre ^^ needle ^^ suf.

(** [j] is a child of the chunk that [addById] finds for the id [i]. *)
Definition childOf (chunksMap : ChunksMap) (i j : ChunkId) : Prop :=
  ∃ c, List.find (λ chunk, bool_decide (id chunk = Some i)) (chunks chunksMap)
       = Some c
       ∧ In j (default [] (children c)).

(** The ids reached from [w] by following child links. *)
Inductive descendant (chunksMap : ChunksMap) (w : ChunkId) : ChunkId → Prop :=
  | descendant_self : descendant chunksMap w w
  | descendant_child (i j : ChunkId) :
      descendant chunksMap w i → childOf chunksMap i j →
      descendant chunksMap w j.

(** A route none of whose annotations is truthy. *)
Definition unannotated (r : LazyRouteMatch) : bool :=
  match module (route r) with
  | Some m => negb (JsString.truthy m)
  | None => true
  end
  && match webpack (route r) with
     | Some (IdNum n) => bool_decide (n = 0)
     | Some (IdStr s) => negb (JsString.truthy s)
     | None => true
     end.

(** The character [a] occurs in [s]. *)
Fixpoint hasChar (a : ascii) (s : string) : bool :=
  match s with
  | EmptyString => false
  | String b s' => bool_decide (b = a) || hasChar a s'
  end.

(** Every file of the batches of [st] is a file of the map that has the
    extension. *)
Definition fromMap (pathname : string → option string) (chunksMap : ChunksMap)
    (ext : string) (st : Acc) : Prop :=
  ∀ f, In f (flatFiles st) →
       In f (allFiles chunksMap) ∧ hasExtension pathname f ext = true.

(** Between [st] and [st'] the traversal rooted at [w] went through
    descendants of [w] only; each id it added to the visited set has all
    its children visited and the batch of its chunk pushed, and it pushed
    nothing else. *)
Definition explores (pathname : string → option string)
    (chunksMap : ChunksMap) (ext : string) (w : ChunkId) (st st' : Acc)
  : Prop :=
  extractedAssets st ⊆ extractedAssets st'
  ∧ (∀ i,
       i ∈ extractedAssets st' → i ∉ extractedAssets st →
       descendant chunksMap w i
       ∧ (∀ j, childOf chunksMap i j → j ∈ extractedAssets st')
       ∧ (∀ c,
            List.find (λ chunk, bool_decide (id chunk = Some i))
              (chunks chunksMap) = Some c →
            In (mkPositionedFiles (filesFromChunks pathname [c] ext))
              (positionedFiles st')))
  ∧ ∃ added,
      positionedFiles st' = positionedFiles st ++ added
      ∧ ∀ b,
          In b added →
          ∃ i c,
            i ∈ extractedAssets st' ∧ (i ∉ extractedAssets st)
            ∧ List.find (λ chunk, bool_decide (id chunk = Some i))
                (chunks chunksMap) = Some c
            ∧ b = mkPositionedFiles (filesFromChunks pathname [c] ext).

(** A chunk of the core group, as its reasons tell. *)
Definition coreChunk (c : Chunk) : Prop :=
  match reasonsStr c with
  | Some t => t = "" ∨ occursIn "@currentProject" t ∨ occursIn "@reactpwa" t
  | None => True
  end.

(** The route [r] selects the chunk [c]: through its module name, through
    its numeric id, or through its string id and the descendants of the
    canonical form of that id. *)
Definition routeSelects (chunksMap : ChunksMap) (r : LazyRouteMatch)
    (c : Chunk) : Prop :=
  (∃ m,
     module (route r) = Some m ∧ m ≠ "" ∧ In c (chunks chunksMap)
     ∧ match reasonsStr c with
       | Some t => occursIn ("||" ^^ m ^^ "||") t
       | None => True
       end)
  ∨ (∃ n,
       webpack (route r) = Some (IdNum n) ∧ n ≠ 0 ∧ In c (chunks chunksMap)
       ∧ match reasonModules c with
         | Some l => In (IdNum n) l
         | None => True
         end)
  ∨ (∃ s i,
       webpack (route r) = Some (IdStr s) ∧ s ≠ ""
       ∧ descendant chunksMap (IdStr (canonicalId s)) i
       ∧ List.find (λ chunk, bool_decide (id chunk = Some i))
           (chunks chunksMap) = Some c).

(** Every visited id has its children visited and the batch of its chunk
    pushed. *)
Definition visitedClosed (pathname : string → option string)
    (chunksMap : ChunksMap) (ext : string) (st : Acc) : Prop :=
  ∀ i,
    i ∈ extractedAssets st →
    (∀ j, childOf chunksMap i j → j ∈ extractedAssets st)
    ∧ (∀ c,
         List.find (λ chunk, bool_decide (id chunk = Some i))
           (chunks chunksMap) = Some c →
         In (mkPositionedFiles (filesFromChunks pathname [c] ext))
           (positionedFiles st)).

(** ** Facts about the string primitives *)

Module JsStringFacts.
Import JsString.

Lemma append_nil_r (s : string) : s ^^ "" = s.
Proof. induction s as [|a s IH]; simpl; [done | by rewrite IH]. Qed.

Lemma append_assoc (s t u : string) : (s ^^ t) ^^ u = s ^^ t ^^ u.
Proof. induction s as [|a s IH]; simpl; [done | by rewrite IH]. Qed.

Lemma append_eq_nil (s t : string) : s ^^ t = "" → s = "" ∧ t = "".
Proof. destruct s; simpl; [done | discriminate]. Qed.

Lemma startsWith_spec (s t : string) :
  startsWith s t = true ↔ ∃ u, s = t ^^ u.
Proof.
  revert s; induction t as [|b t IH]; intros s; simpl.
  - split; [intros _; by exists s | done].
  - destruct s as [|a s].
    + split; [done | intros [u Hu]; discriminate].
    + rewrite andb_true_iff, bool_decide_eq_true, IH. split.
      * intros [-> [u ->]]. by exists u.
      * intros [u Hu]. injection Hu as -> ->. eauto.
Qed.

Lemma startsWith_nil (s : string) : startsWith s "" = true.
Proof. by destruct s. Qed.

(** A scan that starts at a non-negative offset answers [-1] exactly when
    the needle occurs nowhere. *)
Lemma indexOf_from_spec (i : Z) (s t : string) :
  0 ≤ i →
  indexOf_from i s t ≠ -1 ↔ ∃ pre suf, s = pre ^^ t ^^ suf.
Proof.
  revert i; induction s as [|a s IH]; intros i Hi.
  - cbn [indexOf_from]. destruct (startsWith "" t) eqn:Hst.
    + apply startsWith_spec in Hst as [u Hu]. split; [|lia].
      intros _. by exists "", u.
    + split; [done|]. intros (pre & suf & Heq).
      symmetry in Heq. apply append_eq_nil in Heq as [_ Heq].
      apply append_eq_nil in Heq as [-> _]. by rewrite startsWith_nil in Hst.
  - cbn [indexOf_from]. destruct (startsWith (String a s) t) eqn:Hst.
    + apply startsWith_spec in Hst as [u Hu]. split; [|lia].
      intros _. by exists "", u.
    + rewrite IH by lia. split.
      * intros (pre & suf & ->). by exists (String a pre), suf.
      * intros (pre & suf & Heq). destruct pre as [|b pre]; simpl in Heq.
        -- assert (startsWith (String a s) t = true) as Hyes
             by (apply startsWith_spec; eauto).
           congruence.
        -- injection Heq as _ ->. eauto.
Qed.

Lemma indexOf_spec (s t : string) :
  indexOf s t ≠ -1 ↔ ∃ pre suf, s = pre ^^ t ^^ suf.
Proof. by apply indexOf_from_spec. Qed.

Lemma length_map (f : ascii → ascii) (s : string) :
  length (map f s) = length s.
Proof. induction s as [|a s IH]; simpl; [done | by rewrite IH]. Qed.

Lemma charAt_map (f : ascii → ascii) (i : nat) (s : string) :
  charAt i (map f s) = f <$> charAt i s.
Proof.
  revert i; induction s as [|a s IH]; intros i; simpl; [done|].
  destruct i; [done | apply IH].
Qed.

Lemma dropLeading_spec (c : ascii) (s : string) :
  ∃ n, s = replicate n c ^^ dropLeading c s
       ∧ startsWith (dropLeading c s) (String c "") = false.
Proof.
  induction s as [|a s (n & Heq & Hst)]; simpl.
  - by exists O.
  - case_bool_decide as Hac.
    + subst a. exists (S n). simpl. by rewrite <-Heq.
    + exists O. split; [done|]. simpl.
      rewrite bool_decide_eq_false_2 by done. done.
Qed.

Lemma dropTrailing_spec (c : ascii) (s : string) :
  ∃ m, s = dropTrailing c s ^^ replicate m c
       ∧ last (dropTrailing c s) ≠ Some c.
Proof.
  induction s as [|a s (m & Heq & Hlast)]; simpl.
  - by exists O.
  - destruct (dropTrailing c s) as [|b r] eqn:Hr.
    + case_bool_decide as Hac.
      * subst a. exists (S m). simpl in *. by rewrite <-Heq.
      * exists m. simpl in *. split; [by rewrite <-Heq | congruence].
    + exists m. split; [simpl in *; by rewrite <-Heq | done].
Qed.

Lemma dropTrailing_startsWith (c : ascii) (s : string) :
  startsWith s (String c "") = false →
  startsWith (dropTrailing c s) (String c "") = false.
Proof.
  destruct s as [|a s]; simpl; [done|].
  destruct (dropTrailing c s); [|done].
  case_bool_decide; [done|]. simpl.
  by rewrite bool_decide_eq_false_2.
Qed.

End JsStringFacts.

(** ** Facts about [[...new Set(l)]] *)

Lemma fold_Set_add_In (l acc : list string) (x : string) :
  In x (fold_left Set_add l acc) ↔ In x acc ∨ In x l.
Proof.
  revert acc; induction l as [|y l IH]; intros acc; simpl; [tauto|].
  rewrite IH. unfold Set_add. case_bool_decide as Hy.
  - apply list_elem_of_In in Hy. split; [tauto|].
    intros [?|[->|?]]; tauto.
  - rewrite in_app_iff. simpl. tauto.
Qed.

Lemma spreadSet_In (l : list string) (x : string) :
  In x (spreadSet l) ↔ In x l.
Proof. unfold spreadSet. rewrite fold_Set_add_In. simpl. tauto. Qed.

Lemma fold_Set_add_NoDup (l acc : list string) :
  List.NoDup acc → List.NoDup (fold_left Set_add l acc).
Proof.
  revert acc; induction l as [|y l IH]; intros acc Hacc; simpl; [done|].
  apply IH. unfold Set_add. case_bool_decide as Hy; [done|].
  apply NoDup_ListNoDup, NoDup_app. apply NoDup_ListNoDup in Hacc.
  split_and!; [done | | apply NoDup_singleton].
  intros z Hz Hz'. apply list_elem_of_singleton in Hz' as ->. done.
Qed.

Lemma spreadSet_NoDup (l : list string) : List.NoDup (spreadSet l).
Proof. apply fold_Set_add_NoDup. constructor. Qed.

(** ** Facts about the traversal *)

Lemma forEachM_impl {A S : Type} (f g : A → S → option S) (l : list A)
    (s s' : S) :
  (∀ x t t', In x l → f x t = Some t' → g x t = Some t') →
  forEachM f l s = Some s' → forEachM g l s = Some s'.
Proof.
  revert s; induction l as [|x l IH]; intros s Hfg; simpl; [done|].
  destruct (f x s) as [t|] eqn:Hf; [|done].
  rewrite (Hfg x s t) by (simpl; auto). apply IH.
  intros; eapply Hfg; simpl; eauto.
Qed.

Lemma forEachM_ext {A S : Type} (f g : A → S → option S) (l : list A) (s : S) :
  (∀ x t, f x t = g x t) → forEachM f l s = forEachM g l s.
Proof.
  intros Hfg. revert s; induction l as [|x l IH]; intros s; simpl; [done|].
  rewrite Hfg. destruct (g x s); [apply IH | done].
Qed.

Lemma forEachM_total {A S : Type} (f : A → S → option S) (P : S → Prop)
    (l : list A) (s : S) :
  P s →
  (∀ x t, In x l → P t → ∃ t', f x t = Some t' ∧ P t') →
  ∃ s', forEachM f l s = Some s' ∧ P s'.
Proof.
  revert s; induction l as [|x l IH]; intros s Hs Hf; simpl; [eauto|].
  destruct (Hf x s) as (t & -> & Ht); [simpl; auto | done |].
  apply IH; [done|]. intros; apply Hf; simpl; auto.
Qed.

Lemma forEachM_inv {A S : Type} (f : A → S → option S) (P : S → Prop)
    (l : list A) (s s' : S) :
  P s →
  (∀ x t t', In x l → P t → f x t = Some t' → P t') →
  forEachM f l s = Some s' → P s'.
Proof.
  revert s; induction l as [|x l IH]; intros s Hs Hf; simpl.
  - by intros [= <-].
  - destruct (f x s) as [t|] eqn:Hft; [|done].
    apply IH; [eapply Hf; simpl; eauto|].
    intros; eapply Hf; simpl; eauto.
Qed.

Lemma extends_refl (st : Acc) : extends st st.
Proof. exists []. rewrite app_nil_r. simpl. split_and!; [done..|lia]. Qed.

Lemma extends_trans (st1 st2 st3 : Acc) :
  extends st1 st2 → extends st2 st3 → extends st1 st3.
Proof.
  intros (a & Ha & Hs & Hn) (b & Hb & Hs' & Hn').
  exists (a ++ b). rewrite Hb, Ha, <-app_assoc, length_app.
  split_and!; [done | set_solver | lia].
Qed.

Lemma extends_push (st : Acc) (p : PositionedFiles) (w : ChunkId) :
  w ∉ extractedAssets st →
  extends st (push (mkAcc (positionedFiles st) ({[w]} ∪ extractedAssets st)) p).
Proof.
  intros Hw. exists [p]. simpl. split_and!; [done | set_solver |].
  rewrite size_union by set_solver. rewrite size_singleton. lia.
Qed.

Lemma extends_mark (st : Acc) (w : ChunkId) :
  extends st (mkAcc (positionedFiles st) ({[w]} ∪ extractedAssets st)).
Proof.
  exists []. simpl. rewrite app_nil_r. split_and!; [done | set_solver |].
  apply subseteq_size. set_solver.
Qed.

Lemma pushEach_batches (pathname : string → option string) (cs : list Chunk)
    (ext : string) (st : Acc) :
  positionedFiles (pushEach pathname cs ext st)
  = positionedFiles st
    ++ List.map (λ c, mkPositionedFiles (filesFromChunks pathname [c] ext)) cs
  ∧ extractedAssets (pushEach pathname cs ext st) = extractedAssets st.
Proof.
  unfold pushEach. revert st; induction cs as [|c cs IH]; intros st.
  - simpl. by rewrite app_nil_r.
  - cbn [fold_left List.map]. destruct (IH (push st
      (mkPositionedFiles (filesFromChunks pathname [c] ext)))) as [-> ->].
    simpl. by rewrite <-app_assoc.
Qed.

Lemma size_list_to_set_le (l : list ChunkId) :
  (size (list_to_set l : gset ChunkId) ≤ List.length l)%nat.
Proof.
  induction l as [|i l IH]; [by rewrite list_to_set_nil, size_empty|].
  rewrite list_to_set_cons. cbn [List.length].
  destruct (decide (i ∈ (list_to_set l : gset ChunkId))).
  - replace ({[i]} ∪ list_to_set l) with (list_to_set l : gset ChunkId)
      by set_solver.
    lia.
  - rewrite size_union by set_solver. rewrite size_singleton. lia.
Qed.

Lemma length_omap_id (cs : list Chunk) :
  (List.length (omap id cs) ≤ List.length cs)%nat.
Proof.
  induction cs as [|c cs IH]; [done|].
  cbn [omap list_omap List.length]. destruct (id c); cbn [List.length]; lia.
Qed.

Lemma size_chunkIds (chunksMap : ChunksMap) :
  (size (chunkIds chunksMap) ≤ List.length (chunks chunksMap))%nat.
Proof.
  unfold chunkIds.
  pose proof (size_list_to_set_le (omap id (chunks chunksMap))).
  pose proof (length_omap_id (chunks chunksMap)). lia.
Qed.

Section Traversal.

Variable pathname : string → option string.
Variable chunksMap : ChunksMap.
Variable ext : string.

(** More fuel does not change the answer of a call that returned. *)
Lemma addById_fuel_mono (fuel fuel' : nat) (webpackId : ChunkId)
    (st st' : Acc) :
  (fuel ≤ fuel')%nat →
  addById pathname fuel webpackId chunksMap ext st = Some st' →
  addById pathname fuel' webpackId chunksMap ext st = Some st'.
Proof.
  revert fuel' webpackId st st'.
  induction fuel as [|fuel IH]; intros fuel' w st st' Hle; [done|].
  destruct fuel' as [|fuel']; [lia|]. simpl.
  case_bool_decide; [done|].
  destruct (List.find _ _) as [idChunk|]; [|done].
  apply forEachM_impl. intros x t t' _. simpl.
  case_bool_decide; [|done]. apply IH. lia.
Qed.

(** A call whose fuel exceeds the number of chunk ids not yet visited
    returns, and what it returns extends the accumulators. *)
Lemma addById_returns (fuel : nat) (webpackId : ChunkId) (st : Acc) :
  (size (chunkIds chunksMap ∖ extractedAssets st) < fuel)%nat →
  ∃ st', addById pathname fuel webpackId chunksMap ext st = Some st'
         ∧ extends st st'.
Proof.
  revert webpackId st.
  induction fuel as [|fuel IH]; intros w st Hfuel; [lia|]. simpl.
  case_bool_decide as Hseen; [eauto using extends_refl|].
  destruct (List.find _ _) as [idChunk|] eqn:Hfind;
    [|eauto using extends_mark].
  apply find_some in Hfind as [Hin Hid].
  apply bool_decide_eq_true in Hid.
  assert (w ∈ chunkIds chunksMap) as Hw.
  { unfold chunkIds. apply elem_of_list_to_set, list_elem_of_omap.
    exists idChunk. by rewrite list_elem_of_In. }
  set (st1 := push _ _).
  assert (extends st st1) as Hext by by apply extends_push.
  assert (size (chunkIds chunksMap ∖ extractedAssets st1) < fuel)%nat
    as Hless.
  { apply Nat.lt_le_trans
      with (size (chunkIds chunksMap ∖ extractedAssets st)); [|lia].
    apply subset_size. subst st1; simpl. set_solver. }
  destruct (forEachM_total
              (λ childId st,
                 if bool_decide (childId ≠ w)
                 then addById pathname fuel childId chunksMap ext st
                 else Some st)
              (extends st1) (default [] (children idChunk)) st1)
    as (st' & Hrun & Hext'); [apply extends_refl | |].
  - intros x t _ Ht. case_bool_decide; [|eauto].
    destruct (IH x t) as (t' & Hcall & Hstep).
    + eapply Nat.le_lt_trans; [|exact Hless].
      apply subseteq_size. destruct Ht as (? & _ & Hsub & _). set_solver.
    + eauto using extends_trans.
  - exists st'. eauto using extends_trans.
Qed.

(** The depth [budget] grants is enough whatever was visited before. *)
Lemma addById_budget (webpackId : ChunkId) (st : Acc) :
  ∃ st', addById pathname (budget chunksMap) webpackId chunksMap ext st
         = Some st'
         ∧ extends st st'.
Proof.
  apply addById_returns. unfold budget.
  pose proof (size_chunkIds chunksMap).
  assert (size (chunkIds chunksMap ∖ extractedAssets st)
          ≤ size (chunkIds chunksMap))%nat
    by (apply subseteq_size; set_solver).
  lia.
Qed.

End Traversal.

(** ** Facts about the groups *)

Lemma grows_refl (st : Acc) : grows st st.
Proof. exists []. by rewrite app_nil_r. Qed.

Lemma grows_trans (st1 st2 st3 : Acc) :
  grows st1 st2 → grows st2 st3 → grows st1 st3.
Proof.
  intros [a Ha] [b Hb]. exists (a ++ b). by rewrite Hb, Ha, <-app_assoc.
Qed.

Lemma extends_grows (st st' : Acc) : extends st st' → grows st st'.
Proof. intros (a & Ha & _). by exists a. Qed.

Lemma grows_push (st : Acc) (p : PositionedFiles) : grows st (push st p).
Proof. by exists [p]. Qed.

Lemma grows_flatFiles (st st' : Acc) (f : string) :
  grows st st' → In f (flatFiles st) → In f (flatFiles st').
Proof.
  intros [a Ha]. unfold flatFiles. rewrite Ha, map_app, concat_app, in_app_iff.
  tauto.
Qed.

Lemma flatFiles_push (st : Acc) (p : PositionedFiles) :
  flatFiles (push st p) = flatFiles st ++ batch p.
Proof.
  unfold flatFiles, push. simpl.
  by rewrite map_app, concat_app; simpl; rewrite app_nil_r.
Qed.

Section Groups.

Variable pathname : string → option string.
Variable chunksMap : ChunksMap.
Variable ext : string.

Lemma filesFromChunks_In (cs : list Chunk) (f : string) :
  In f (filesFromChunks pathname cs ext)
  ↔ ∃ c, In c cs ∧ In f (default [] (files c))
         ∧ hasExtension pathname f ext = true.
Proof.
  unfold filesFromChunks. rewrite in_concat. split.
  - intros (l & Hl & Hf). apply in_map_iff in Hl as (c & <- & Hc).
    apply filter_In in Hf as [? ?]. eauto.
  - intros (c & Hc & Hf & Hext). eexists. split.
    + apply in_map_iff. eauto.
    + apply filter_In. eauto.
Qed.

Lemma mainGroup_grows (st : Acc) : grows st (mainGroup pathname chunksMap ext st).
Proof.
  unfold mainGroup. case_bool_decide; [apply grows_push | apply grows_refl].
Qed.

Lemma coreGroup_grows (st : Acc) : grows st (coreGroup pathname chunksMap ext st).
Proof.
  unfold coreGroup. case_bool_decide; [apply grows_push | apply grows_refl].
Qed.

Lemma mainGroup_In (st : Acc) (f : string) :
  In f (mainAssets chunksMap) → hasExtension pathname f ext = true →
  In f (flatFiles (mainGroup pathname chunksMap ext st)).
Proof.
  intros Hf Hext. unfold mainGroup.
  assert (In f (List.filter (λ file, hasExtension pathname file ext)
                  (mainAssets chunksMap))) as Hin
    by (apply filter_In; auto).
  case_bool_decide as Hlen.
  - rewrite flatFiles_push, in_app_iff. simpl. auto.
  - destruct (List.filter _ _); [done|]. simpl in Hlen. lia.
Qed.

Lemma coreGroup_In (st : Acc) (c : Chunk) (f : string) :
  In c (chunks chunksMap) → isCurrentProjectChunk c = true →
  In f (default [] (files c)) → hasExtension pathname f ext = true →
  In f (flatFiles (coreGroup pathname chunksMap ext st)).
Proof.
  intros Hc Hcore Hf Hext. unfold coreGroup.
  assert (In f (filesFromChunks pathname (currentProjectChunks chunksMap) ext))
    as Hin.
  { apply filesFromChunks_In. exists c. split_and!; [|done..].
    apply filter_In. auto. }
  case_bool_decide as Hlen.
  - rewrite flatFiles_push, in_app_iff. simpl. auto.
  - destruct (filesFromChunks _ _ _); [done|]. simpl in Hlen. lia.
Qed.

Lemma pushEach_grows (cs : list Chunk) (st : Acc) :
  grows st (pushEach pathname cs ext st).
Proof. eexists. apply pushEach_batches. Qed.

Lemma moduleGroup_grows (r : LazyRouteMatch) (st : Acc) :
  grows st (moduleGroup pathname r chunksMap ext st).
Proof.
  unfold moduleGroup. destruct (module (route r)) as [m|];
    [|apply grows_refl].
  destruct (JsString.truthy m); [apply pushEach_grows | apply grows_refl].
Qed.

Lemma numericGroup_grows (r : LazyRouteMatch) (st : Acc) :
  grows st (numericGroup pathname r chunksMap ext st).
Proof.
  unfold numericGroup. destruct (webpack (route r)) as [[n|s]|];
    try apply grows_refl.
  case_bool_decide; [apply pushEach_grows | apply grows_refl].
Qed.

Lemma stringGroup_returns (r : LazyRouteMatch) (st : Acc) :
  ∃ st', stringGroup pathname r chunksMap ext st = Some st' ∧ grows st st'.
Proof.
  unfold stringGroup. destruct (webpack (route r)) as [[n|s]|];
    eauto using grows_refl.
  destruct (JsString.truthy s); eauto using grows_refl.
  destruct (addById_budget pathname chunksMap ext (IdStr (canonicalId s)) st)
    as (st' & -> & Hext).
  eauto using extends_grows.
Qed.

Lemma routeStep_returns (r : LazyRouteMatch) (st : Acc) :
  ∃ st', routeStep pathname chunksMap ext r st = Some st' ∧ grows st st'.
Proof.
  unfold routeStep.
  destruct (stringGroup_returns r
              (numericGroup pathname r chunksMap ext
                 (moduleGroup pathname r chunksMap ext st)))
    as (st' & -> & Hg).
  exists st'. split; [done|].
  eauto using grows_trans, numericGroup_grows, moduleGroup_grows.
Qed.

Lemma routes_return (routes : list LazyRouteMatch) (st : Acc) :
  ∃ st', forEachM (routeStep pathname chunksMap ext) routes st = Some st'
         ∧ grows st st'.
Proof.
  apply (forEachM_total _ (grows st)); [apply grows_refl|].
  intros r t _ Ht. destruct (routeStep_returns r t) as (t' & -> & Hg).
  eauto using grows_trans.
Qed.

(** [extractFiles] returns on every sequence of routes, and what it
    returns holds every file of the first two groups. *)
Lemma extractFiles_returns (routes : list LazyRouteMatch) :
  ∃ st, extractFiles pathname (Some routes) chunksMap ext
        = Some (List.map prependForwardSlash (spreadSet (flatFiles st)))
        ∧ grows (coreGroup pathname chunksMap ext
                   (mainGroup pathname chunksMap ext (mkAcc [] ∅))) st.
Proof.
  unfold extractFiles.
  destruct (routes_return routes
              (coreGroup pathname chunksMap ext
                 (mainGroup pathname chunksMap ext (mkAcc [] ∅))))
    as (st & -> & Hg).
  eauto.
Qed.

End Groups.

(** ** The resolver reads [pathname] on the files of the map only *)

Section Agreement.

Variables pathname pathname' : string → option string.
Variable chunksMap : ChunksMap.
Variable ext : string.
Hypothesis agree : ∀ f, In f (allFiles chunksMap) → pathname f = pathname' f.

Lemma filesFromChunks_agree (cs : list Chunk) :
  (∀ c, In c cs → In c (chunks chunksMap)) →
  filesFromChunks pathname cs ext = filesFromChunks pathname' cs ext.
Proof.
  intros Hcs. unfold filesFromChunks. f_equal. apply map_ext_in.
  intros c Hc. apply filter_ext_in. intros f Hf. unfold hasExtension.
  rewrite agree; [done|]. unfold allFiles. rewrite in_app_iff. right.
  apply in_concat. eexists. split; [|exact Hf].
  apply in_map_iff. exists c. auto.
Qed.

Lemma pushEach_agree (cs : list Chunk) (st : Acc) :
  (∀ c, In c cs → In c (chunks chunksMap)) →
  pushEach pathname cs ext st = pushEach pathname' cs ext st.
Proof.
  unfold pushEach. revert st; induction cs as [|c cs IH]; intros st Hcs;
    [done|].
  cbn [fold_left]. rewrite (filesFromChunks_agree [c]).
  - apply IH. intros; apply Hcs; simpl; auto.
  - intros c' [<-|[]]. apply Hcs. simpl. auto.
Qed.

Lemma addById_agree (fuel : nat) (webpackId : ChunkId) (st : Acc) :
  addById pathname fuel webpackId chunksMap ext st
  = addById pathname' fuel webpackId chunksMap ext st.
Proof.
  revert webpackId st. induction fuel as [|fuel IH]; intros w st; [done|].
  simpl. case_bool_decide; [done|].
  destruct (List.find _ _) as [idChunk|] eqn:Hfind; [|done].
  apply find_some in Hfind as [Hin _].
  rewrite (filesFromChunks_agree [idChunk]) by (by intros c' [<-|[]]).
  apply forEachM_ext. intros x t. by rewrite IH.
Qed.

Lemma routeStep_agree (r : LazyRouteMatch) (st : Acc) :
  routeStep pathname chunksMap ext r st = routeStep pathname' chunksMap ext r st.
Proof.
  assert (∀ (P : Chunk → bool) c,
            In c (List.filter P (chunks chunksMap)) → In c (chunks chunksMap))
    as Hsub by (intros P c Hc; by apply filter_In in Hc as [? _]).
  unfold routeStep, stringGroup, numericGroup, moduleGroup, moduleGroupChunks.
  destruct (module (route r)) as [m|], (webpack (route r)) as [[n|s]|];
    repeat match goal with
           | |- context [bool_decide ?P] => destruct (bool_decide P)
           | |- context [JsString.truthy ?x] => destruct (JsString.truthy x)
           end;
    rewrite ?addById_agree;
    repeat (rewrite (pushEach_agree (List.filter _ _)) by apply Hsub);
    done.
Qed.

Lemma extractFiles_agree (matchedRoutes : option (list LazyRouteMatch)) :
  extractFiles pathname matchedRoutes chunksMap ext
  = extractFiles pathname' matchedRoutes chunksMap ext.
Proof.
  destruct matchedRoutes as [routes|]; [|done]. unfold extractFiles.
  rewrite (forEachM_ext _ _ _ _ routeStep_agree).
  assert (mainGroup pathname chunksMap ext (mkAcc [] ∅)
          = mainGroup pathname' chunksMap ext (mkAcc [] ∅)) as ->.
  { unfold mainGroup.
    assert (List.filter (λ file, hasExtension pathname file ext)
              (mainAssets chunksMap)
            = List.filter (λ file, hasExtension pathname' file ext)
                (mainAssets chunksMap)) as ->; [|done].
    apply filter_ext_in. intros f Hf. unfold hasExtension.
    rewrite agree; [done|]. unfold allFiles. rewrite in_app_iff. auto. }
  assert (∀ st, coreGroup pathname chunksMap ext st
                = coreGroup pathname' chunksMap ext st) as ->; [|done].
  intros st. unfold coreGroup, currentProjectChunks.
  rewrite (filesFromChunks_agree (List.filter _ _)); [done|].
  intros c Hc. by apply filter_In in Hc as [? _].
Qed.

End Agreement.

(** The string id of a route matters through its canonical form and its
    truthiness only. *)
Lemma routeStep_canonical (pathname : string → option string)
    (chunksMap : ChunksMap) (ext : string) (s s' : string) (m : option string)
    (st : Acc) :
  canonicalId s = canonicalId s' →
  JsString.truthy s = JsString.truthy s' →
  routeStep pathname chunksMap ext (mkLazyRouteMatch (mkLazyRoute (Some (IdStr s)) m)) st
  = routeStep pathname chunksMap ext (mkLazyRouteMatch (mkLazyRoute (Some (IdStr s')) m)) st.
Proof.
  intros Hc Ht. unfold routeStep, stringGroup, numericGroup, moduleGroup.
  simpl. by rewrite Hc, Ht.
Qed.

(** * Properties checked against the specification *)

(** ** Path normalizer *)

(** C9. The path normalizer is idempotent:
    [normalize (normalize p) = normalize p] for every path [p]; it returns
    a path that begins with "http" unchanged and otherwise makes sure the
    path has a leading "/". *)
Theorem prependForwardSlash_idempotent (p : string) :
  prependForwardSlash (prependForwardSlash p) = prependForwardSlash p
  ∧ (if JsString.startsWith p "http"
     then prependForwardSlash p = p
     else JsString.startsWith (prependForwardSlash p) "/" = true).
Proof.
  unfold prependForwardSlash.
  destruct (JsString.startsWith p "http") eqn:Hhttp.
  - by rewrite Hhttp.
  - destruct (JsString.startsWith p "/") eqn:Hslash.
    + by rewrite Hhttp, Hslash.
    + done.
Qed.

(** ** Descendant traversal *)

(** C7. The descendant traversal started from an id terminates on every
    chunks map, whatever the children relation looks like (cycles and
    self-references included): within the depth [budget] the call returns,
    more depth gives the same answer, and the visited-id guard makes every
    pushed batch pay for one id newly added to the visited set, so no id is
    processed twice. *)
Theorem addById_terminates (pathname : string → option string)
    (chunksMap : ChunksMap) (ext : string) (webpackId : ChunkId) (st : Acc) :
  ∃ st',
    addById pathname (budget chunksMap) webpackId chunksMap ext st = Some st'
    ∧ (∀ extra,
         addById pathname (budget chunksMap + extra) webpackId chunksMap ext st
         = Some st')
    ∧ extends st st'.
Proof.
  destruct (addById_budget pathname chunksMap ext webpackId st)
    as (st' & Hrun & Hext).
  exists st'. split_and!; [done | | done].
  intros extra. eapply addById_fuel_mono; [|exact Hrun]. lia.
Qed.

(** ** Scenarios *)

(** C8. With no matched route the main and core groups still run: the
    output holds every main asset and every file of a core chunk that has
    the extension; on scenario A, [resolve([], map, ".js")] is exactly
    ["/main.js"]. *)
Theorem empty_routes_run_main_and_core (pathname : string → option string) :
  (∀ chunksMap ext,
     ∃ out,
       extractFiles pathname (Some []) chunksMap ext = Some out
       ∧ ∀ f,
           hasExtension pathname f ext = true →
           In f (mainAssets chunksMap)
           ∨ (∃ c, In c (chunks chunksMap)
                   ∧ isCurrentProjectChunk c = true
                   ∧ In f (default [] (files c))) →
           In (prependForwardSlash f) out)
  ∧ (pathname "main.js" = Some "main.js" →
     pathname "main.css" = Some "main.css" →
     extractFiles pathname (Some []) scenarioA ".js" = Some ["/main.js"]).
Proof.
  split.
  - intros chunksMap ext. eexists. split; [reflexivity|].
    intros f Hext Hf. apply in_map, spreadSet_In.
    destruct Hf as [Hmain | (c & Hc & Hcore & Hf)].
    + eapply grows_flatFiles; [apply coreGroup_grows|].
      by apply mainGroup_In.
    + by eapply coreGroup_In.
  - intros Hjs Hcss.
    rewrite (extractFiles_agree pathname relativePathname);
      [by vm_compute|].
    intros f Hf. vm_compute in Hf.
    destruct Hf as [<-|[<-|[<-|[<-|[]]]]]; by rewrite ?Hjs, ?Hcss.
Qed.

Lemma empty_routes_run_main_and_core_witness :
  extractFiles relativePathname (Some []) scenarioA ".js" = Some ["/main.js"].
Proof.
  apply (empty_routes_run_main_and_core relativePathname); reflexivity.
Defined.

(** C4. Scenario C (cycle safety): with the single chunk
    [{id: 5, children: [5], files: ["c.js"]}], resolving a route whose
    string id canonicalizes to "5" with extension ".js" returns, and
    "/c.js" is in the output exactly once. The same holds on the variant
    [scenarioCstr], in which the traversal finds the chunk and meets its
    self-reference. *)
Theorem scenarioC_cycle_safe (pathname : string → option string) (s : string) :
  pathname "c.js" = Some "c.js" →
  canonicalId s = "5" →
  extractFiles pathname (Some [routeWith (Some (IdStr s)) None]) scenarioC ".js"
  = Some ["/c.js"]
  ∧ extractFiles pathname (Some [routeWith (Some (IdStr s)) None])
      scenarioCstr ".js"
    = Some ["/c.js"].
Proof.
  intros Hc Hs.
  assert (JsString.truthy s = true) as Ht by (by destruct s).
  assert (∀ chunksMap,
            extractFiles pathname (Some [routeWith (Some (IdStr s)) None])
              chunksMap ".js"
            = extractFiles pathname (Some [routeWith (Some (IdStr "5")) None])
                chunksMap ".js") as Hcanon.
  { intros chunksMap. unfold extractFiles, routeWith. cbn [forEachM].
    by rewrite (routeStep_canonical _ _ _ s "5"). }
  rewrite !Hcanon. split.
  - rewrite (extractFiles_agree pathname relativePathname);
      [by vm_compute|].
    intros f Hf. vm_compute in Hf. destruct Hf as [<-|[]]. by rewrite Hc.
  - rewrite (extractFiles_agree pathname relativePathname);
      [by vm_compute|].
    intros f Hf. vm_compute in Hf. destruct Hf as [<-|[]]. by rewrite Hc.
Qed.

Lemma scenarioC_cycle_safe_witness :
  extractFiles relativePathname (Some [routeWith (Some (IdStr "/5.")) None])
    scenarioC ".js"
  = Some ["/c.js"]
  ∧ extractFiles relativePathname (Some [routeWith (Some (IdStr "/5.")) None])
      scenarioCstr ".js"
    = Some ["/c.js"].
Proof.
  apply (scenarioC_cycle_safe relativePathname "/5."); reflexivity.
Defined.

(** C1 as the specification states it: on scenario B the output would hold
    "/a.css" and not "/b.css". Chunk B has an empty [reasonsStr], so the
    core group selects it and "/b.css" is in the output. *)
Lemma scenarioB_excludes_b_counterexample :
  ¬ (∀ pathname : string → option string,
       pathname "a.css" = Some "a.css" →
       pathname "b.css" = Some "b.css" →
       ∃ out,
         extractFiles pathname
           (Some [routeWith (Some (IdStr "home.module")) None]) scenarioB
           ".css"
         = Some out
         ∧ In "/a.css" out ∧ ¬ In "/b.css" out).
Proof.
  intros Hclaim.
  destruct (Hclaim relativePathname eq_refl eq_refl) as (out & Hout & _ & Hb).
  vm_compute in Hout. injection Hout as <-. apply Hb. simpl. auto.
Qed.

(** C1, amended. On scenario B, resolving the route
    [{webpack: "home.module"}] with extension ".css" yields "/a.css" and
    "/b.css", in the order of the chunks in the map: both chunks have an
    empty [reasonsStr] and belong to the core group. The descendant
    traversal from the canonical id "home_module" on its own pushes the
    files of A and nothing of B, and visits "home_module" only. *)
Theorem scenarioB_resolution (pathname : string → option string) :
  pathname "a.css" = Some "a.css" →
  pathname "b.css" = Some "b.css" →
  extractFiles pathname (Some [routeWith (Some (IdStr "home.module")) None])
    scenarioB ".css"
  = Some ["/a.css"; "/b.css"]
  ∧ extractFiles pathname (Some [routeWith (Some (IdStr "home.module")) None])
      scenarioB' ".css"
    = Some ["/b.css"; "/a.css"]
  ∧ addById pathname (budget scenarioB) (IdStr (canonicalId "home.module"))
      scenarioB ".css" (mkAcc [] ∅)
    = Some (mkAcc [mkPositionedFiles ["a.css"]] {[IdStr "home_module"]}).
Proof.
  intros Ha Hb.
  assert (∀ f, In f ["a.css"; "b.css"] → pathname f = relativePathname f)
    as Hagree by (intros f [<-|[<-|[]]]; by rewrite ?Ha, ?Hb).
  split_and!.
  - rewrite (extractFiles_agree pathname relativePathname);
      [by vm_compute | exact Hagree].
  - rewrite (extractFiles_agree pathname relativePathname);
      [by vm_compute|].
    intros f Hf. apply Hagree. vm_compute in Hf. simpl. tauto.
  - rewrite (addById_agree pathname relativePathname);
      [by vm_compute | exact Hagree].
Qed.

Lemma scenarioB_resolution_witness :
  extractFiles relativePathname
    (Some [routeWith (Some (IdStr "home.module")) None]) scenarioB ".css"
  = Some ["/a.css"; "/b.css"]
  ∧ extractFiles relativePathname
      (Some [routeWith (Some (IdStr "home.module")) None]) scenarioB' ".css"
    = Some ["/b.css"; "/a.css"]
  ∧ addById relativePathname (budget scenarioB)
      (IdStr (canonicalId "home.module")) scenarioB ".css" (mkAcc [] ∅)
    = Some (mkAcc [mkPositionedFiles ["a.css"]] {[IdStr "home_module"]}).
Proof.
  apply (scenarioB_resolution relativePathname); reflexivity.
Defined.

(** ** Chunks without a reasons string *)

(** C10. A chunk of the map whose [reasonsStr] is absent is one of the
    core chunks, it is selected by the per-route module-name query of
    every module name (the optional chain yields [undefined], and
    [undefined !== -1] holds), and whatever the routes are the output
    holds each of its files that has the extension. *)
Theorem absent_reasonsStr_selected (pathname : string → option string)
    (chunksMap : ChunksMap) (ext : string) (c : Chunk) :
  In c (chunks chunksMap) →
  reasonsStr c = None →
  In c (currentProjectChunks chunksMap)
  ∧ (∀ needle, notMinusOne (reasonsStrIndexOf c needle) = true)
  ∧ (∀ m, In c (moduleGroupChunks m chunksMap))
  ∧ (∀ routes,
       ∃ out,
         extractFiles pathname (Some routes) chunksMap ext = Some out
         ∧ ∀ f,
             In f (default [] (files c)) →
             hasExtension pathname f ext = true →
             In (prependForwardSlash f) out).
Proof.
  intros Hc Habsent.
  assert (∀ needle, notMinusOne (reasonsStrIndexOf c needle) = true) as Hany
    by (intros needle; unfold reasonsStrIndexOf; by rewrite Habsent).
  assert (isCurrentProjectChunk c = true) as Hcore
    by (unfold isCurrentProjectChunk; by rewrite Hany).
  split_and!; [by apply filter_In | done | |].
  - intros m. apply filter_In. split; [done | apply Hany].
  - intros routes.
    destruct (extractFiles_returns pathname chunksMap ext routes)
      as (st & -> & Hg).
    eexists. split; [done|]. intros f Hf Hext.
    apply in_map, spreadSet_In. eapply grows_flatFiles; [exact Hg|].
    by eapply coreGroup_In.
Qed.

Lemma absent_reasonsStr_selected_witness :
  In chunkC (currentProjectChunks scenarioC)
  ∧ (∀ needle, notMinusOne (reasonsStrIndexOf chunkC needle) = true)
  ∧ (∀ m, In chunkC (moduleGroupChunks m scenarioC))
  ∧ (∀ routes,
       ∃ out,
         extractFiles relativePathname (Some routes) scenarioC ".js" = Some out
         ∧ ∀ f,
             In f (default [] (files chunkC)) →
             hasExtension relativePathname f ".js" = true →
             In (prependForwardSlash f) out).
Proof.
  apply (absent_reasonsStr_selected relativePathname scenarioC ".js" chunkC).
  - simpl. auto.
  - reflexivity.
Defined.

(** ** Deduplication *)

(** Before normalization the resolved files are pairwise distinct. *)
Lemma extractFiles_distinct_before_normalization
    (pathname : string → option string) (routes : list LazyRouteMatch)
    (chunksMap : ChunksMap) (ext : string) :
  ∃ raw,
    extractFiles pathname (Some routes) chunksMap ext
    = Some (List.map prependForwardSlash raw)
    ∧ List.NoDup raw.
Proof.
  destruct (extractFiles_returns pathname chunksMap ext routes)
    as (st & -> & _).
  eauto using spreadSet_NoDup.
Qed.

(** C5, at an input on which it fails. The files are deduplicated first
    and normalized afterwards: when the main entry lists "a.js" and
    "/a.js", both survive the deduplication and both normalize to
    "/a.js", which the output then holds twice. *)
Theorem extractFiles_twoSpellings (pathname : string → option string) :
  pathname "a.js" = Some "a.js" →
  pathname "/a.js" = Some "/a.js" →
  extractFiles pathname (Some []) twoSpellings ".js" = Some ["/a.js"; "/a.js"]
  ∧ ¬ List.NoDup ["/a.js"; "/a.js"].
Proof.
  intros Ha Hb. split.
  - rewrite (extractFiles_agree pathname relativePathname);
      [by vm_compute|].
    intros f Hf. vm_compute in Hf. destruct Hf as [<-|[<-|[]]];
      by rewrite ?Ha, ?Hb.
  - intros Hnd. apply NoDup_cons_iff in Hnd as [Hnotin _].
    apply Hnotin. simpl. auto.
Qed.

Lemma extractFiles_twoSpellings_witness :
  extractFiles relativePathname (Some []) twoSpellings ".js"
  = Some ["/a.js"; "/a.js"]
  ∧ ¬ List.NoDup ["/a.js"; "/a.js"].
Proof.
  apply (extractFiles_twoSpellings relativePathname); reflexivity.
Defined.

(** ** Per-route module-name group *)

Lemma filter_sublist {A : Type} (P : A → bool) (l : list A) :
  sublist (List.filter P l) l.
Proof.
  induction l as [|x l IH]; simpl; [constructor|].
  destruct (P x); by constructor.
Qed.

Lemma moduleMatches_spec (m : string) (c : Chunk) :
  moduleMatches m c = true
  ↔ match reasonsStr c with
    | Some s => occursIn ("||" ^^ m ^^ "||") s
    | None => True
    end.
Proof.
  unfold moduleMatches, reasonsStrIndexOf, occursIn.
  destruct (reasonsStr c) as [s|]; simpl; [|done].
  rewrite negb_true_iff, Z.eqb_neq. apply JsStringFacts.indexOf_spec.
Qed.

(** C2 as the specification states it: the chunks of the group would be
    exactly those whose [reasonsStr] contains the delimited module name.
    A chunk that has no [reasonsStr] is in the group of every module. *)
Lemma moduleGroup_exact_counterexample :
  ¬ (∀ c,
       In c (moduleGroupChunks "Header" scenarioC)
       ↔ In c (chunks scenarioC)
         ∧ ∃ s, reasonsStr c = Some s ∧ occursIn ("||" ^^ "Header" ^^ "||") s).
Proof.
  intros Hclaim. destruct (Hclaim chunkC) as [Hsel _].
  destruct Hsel as (_ & s & Hs & _); [|discriminate].
  vm_compute. auto.
Qed.

(** C2, amended. For a route that carries a module name [m], the group
    pushes one batch per selected chunk, in the order of the map, each
    batch being the files of that chunk that have the extension. Among the
    chunks that have a [reasonsStr], the selected ones are exactly those
    whose [reasonsStr] contains [m] wrapped in "||"; a chunk without a
    [reasonsStr] is selected whatever [m] is. With
    [reasonsStr = "||Header||Footer||"], the module "Header" selects the
    chunk and the module "HeaderX" does not. *)
Theorem moduleGroup_selection (pathname : string → option string)
    (chunksMap : ChunksMap) (ext : string) (st : Acc) (w : option ChunkId)
    (m : string) :
  m ≠ "" →
  (∃ selected,
     sublist selected (chunks chunksMap)
     ∧ (∀ c,
          In c selected
          ↔ In c (chunks chunksMap)
            ∧ match reasonsStr c with
              | Some s => occursIn ("||" ^^ m ^^ "||") s
              | None => True
              end)
     ∧ positionedFiles
         (moduleGroup pathname (routeWith w (Some m)) chunksMap ext st)
       = positionedFiles st
         ++ List.map
              (λ c, mkPositionedFiles
                      (List.filter (λ file, hasExtension pathname file ext)
                         (default [] (files c))))
              selected)
  ∧ moduleMatches "Header" chunkD = true
  ∧ moduleMatches "HeaderX" chunkD = false.
Proof.
  intros Hm. split; [|by vm_compute].
  exists (moduleGroupChunks m chunksMap). split_and!.
  - apply filter_sublist.
  - intros c. unfold moduleGroupChunks.
    by rewrite filter_In, moduleMatches_spec.
  - unfold moduleGroup, routeWith. simpl.
    assert (JsString.truthy m = true) as ->
      by (unfold JsString.truthy; by rewrite bool_decide_eq_false_2).
    destruct (pushEach_batches pathname (moduleGroupChunks m chunksMap) ext st)
      as [-> _].
    f_equal. apply map_ext. intros c. unfold filesFromChunks. simpl.
    by rewrite app_nil_r.
Qed.

Lemma moduleGroup_selection_witness :
  (∃ selected,
     sublist selected (chunks scenarioC)
     ∧ (∀ c,
          In c selected
          ↔ In c (chunks scenarioC)
            ∧ match reasonsStr c with
              | Some s => occursIn ("||" ^^ "Header" ^^ "||") s
              | None => True
              end)
     ∧ positionedFiles
         (moduleGroup relativePathname (routeWith None (Some "Header"))
            scenarioC ".js" (mkAcc [] ∅))
       = positionedFiles (mkAcc [] ∅)
         ++ List.map
              (λ c, mkPositionedFiles
                      (List.filter
                         (λ file, hasExtension relativePathname file ".js")
                         (default [] (files c))))
              selected)
  ∧ moduleMatches "Header" chunkD = true
  ∧ moduleMatches "HeaderX" chunkD = false.
Proof.
  apply (moduleGroup_selection relativePathname scenarioC ".js" (mkAcc [] ∅)
           None "Header").
  discriminate.
Defined.

(** ** Canonical chunk id *)

(** C3 as the specification states it: every run of non-alphanumeric
    characters would become a single underscore. The source replaces the
    characters '.' and '/' only, one underscore for each. *)
Lemma canonicalId_runs_counterexample :
  ¬ (∀ s, canonicalId s = specCanonicalId s).
Proof. intros Hclaim. specialize (Hclaim "a..b-c"). by vm_compute in Hclaim. Qed.

(** C3, amended. The canonical id of a string [webpack] annotation is
    obtained by replacing each '.' and each '/' with an underscore, every
    other character being kept and no run being collapsed, and then
    removing the leading and the trailing underscores; the traversal of a
    route starts from it. "home.module" canonicalizes to "home_module". *)
Theorem canonicalId_spec (s : string) :
  canonicalId "home.module" = "home_module"
  ∧ (∀ i,
       JsString.charAt i (JsString.map replaceDotSlash s)
       = (λ a, if bool_decide (a = "."%char ∨ a = "/"%char)
               then "_"%char else a)
         <$> JsString.charAt i s)
  ∧ JsString.length (JsString.map replaceDotSlash s) = JsString.length s
  ∧ (∃ n m,
       JsString.map replaceDotSlash s
       = JsString.replicate n "_" ^^ canonicalId s ^^ JsString.replicate m "_")
  ∧ JsString.startsWith (canonicalId s) "_" = false
  ∧ JsString.last (canonicalId s) ≠ Some "_"%char
  ∧ (∀ pathname chunksMap ext m st,
       stringGroup pathname (routeWith (Some (IdStr s)) m) chunksMap ext st
       = if JsString.truthy s
         then addById pathname (budget chunksMap) (IdStr (canonicalId s))
                chunksMap ext st
         else Some st).
Proof.
  unfold canonicalId.
  destruct (JsStringFacts.dropLeading_spec "_"
              (JsString.map replaceDotSlash s)) as (n & Hn & Hlead).
  destruct (JsStringFacts.dropTrailing_spec "_"
              (JsString.dropLeading "_" (JsString.map replaceDotSlash s)))
    as (m & Hm & Htrail).
  split_and!.
  - by vm_compute.
  - intros i. apply JsStringFacts.charAt_map.
  - apply JsStringFacts.length_map.
  - exists n, m. by rewrite <-Hm.
  - by apply JsStringFacts.dropTrailing_startsWith.
  - done.
  - done.
Qed.

(** ** Style-content fetcher *)

Lemma Promise_all_rejected {A : Type} (ps : list (Settled A)) (e : Rejection) :
  In (Rejected e) ps → Promise_all ps = Rejected CssFileNotFound.
Proof.
  induction ps as [|p ps IH]; [done|]. intros [->|Hin]; simpl.
  - by destruct e.
  - destruct p as [a|[]]; [|done]. by rewrite IH.
Qed.

Lemma Promise_all_fulfilled {A B : Type} (g : A → Settled B) (h : A → B)
    (l : list A) :
  (∀ x, In x l → g x = Fulfilled (h x)) →
  Promise_all (List.map g l) = Fulfilled (List.map h l).
Proof.
  induction l as [|x l IH]; intros Hg; [done|]. simpl.
  rewrite (Hg x) by (simpl; auto). rewrite IH; [done|].
  intros; apply Hg; simpl; auto.
Qed.

Lemma storeContent_keeps (disk : string → option string)
    (cssContentMap : gmap string string) (cssFiles : list string)
    (cache : gmap string string) (g c : string) :
  cssContentMap !! g = None → disk g = Some c →
  In g cssFiles ∨ cache !! g = Some c →
  fold_left (storeContent disk cssContentMap) cssFiles cache !! g = Some c.
Proof.
  intros Hmiss Hdisk. revert cache.
  induction cssFiles as [|x l IH]; intros cache Hg; simpl.
  - by destruct Hg.
  - apply IH. destruct (decide (x = g)) as [->|Hne].
    + right. unfold storeContent, getCssFileContent.
      rewrite Hmiss, Hdisk. apply lookup_insert_eq.
    + destruct Hg as [[?|?]|Hc]; [done | by left | right].
      unfold storeContent, getCssFileContent.
      destruct (cssContentMap !! x); [done|].
      destruct (disk x); [|done]. by rewrite lookup_insert_ne.
Qed.

(** When every path is cached or on disk the call is fulfilled with one
    pair per path, in the order of the paths. *)
Lemma fetchStyles_fulfilled (disk : string → option string)
    (cssContentMap : gmap string string) (cssFiles : list string) :
  (∀ f, In f cssFiles → is_Some (cssContentMap !! f) ∨ is_Some (disk f)) →
  ∃ l, (fetchStyles disk cssContentMap cssFiles).1 = Fulfilled l
       ∧ List.map href l = cssFiles.
Proof.
  intros Hall.
  exists (List.map
            (λ f, mkStyleWithContent f
                    (default (default "" (disk f)) (cssContentMap !! f)))
            cssFiles).
  split.
  - unfold fetchStyles. simpl. apply Promise_all_fulfilled.
    intros f Hf. unfold styleWithContent, getCssFileContent.
    destruct (cssContentMap !! f) as [c|] eqn:Hc; [done|].
    destruct (Hall f Hf) as [[? ?]|[c ->]]; [congruence | done].
  - rewrite map_map. simpl. apply map_id.
Qed.

(** C6 as the specification states it: with one style sheet missing on
    disk the pair of the other path would still be produced. On scenario B
    with only the style sheet of A on disk, the call is rejected and
    returns no pair. *)
Lemma missing_style_scoped_counterexample :
  ¬ (∃ l cache,
       extractStylesWithContent relativePathname diskOnlyA ∅
         (Some [routeWith (Some (IdStr "home.module")) None]) scenarioB
       = Some (Fulfilled l, cache)
       ∧ In (mkStyleWithContent "/a.css" "a{}") l).
Proof.
  intros (l & cache & Hrun & _).
  assert (extractStyles relativePathname
            (Some [routeWith (Some (IdStr "home.module")) None]) scenarioB
          = Some ["/a.css"; "/b.css"]) as Hfiles by (by vm_compute).
  unfold extractStylesWithContent in Hrun. rewrite Hfiles in Hrun.
  simpl in Hrun. injection Hrun as Hrun _. by vm_compute in Hrun.
Qed.

(** C6, amended. When one of the resolved style paths is not cached and
    has no file on disk, the FileNotFound-kind error rejects the whole
    call: [Promise.all] yields no [{path, content}] pair, for that path or
    for any other. The content of every other path that was read from
    disk is nevertheless stored in the cache. *)
Theorem missing_style_rejects_call (pathname : string → option string)
    (disk : string → option string) (cssContentMap : gmap string string)
    (matchedRoutes : option (list LazyRouteMatch)) (chunksMap : ChunksMap)
    (cssFiles : list string) (missing : string) :
  extractStyles pathname matchedRoutes chunksMap = Some cssFiles →
  In missing cssFiles →
  cssContentMap !! missing = None →
  disk missing = None →
  ∃ cache,
    extractStylesWithContent pathname disk cssContentMap matchedRoutes chunksMap
    = Some (Rejected CssFileNotFound, cache)
    ∧ ∀ other c,
        In other cssFiles →
        cssContentMap !! other = None →
        disk other = Some c →
        cache !! other = Some c.
Proof.
  intros Hfiles Hin Hmiss Hdisk.
  unfold extractStylesWithContent. rewrite Hfiles. simpl. unfold fetchStyles.
  eexists. split.
  - f_equal. f_equal. apply (Promise_all_rejected _ CssFileNotFound).
    apply in_map_iff. exists missing. split; [|done].
    unfold styleWithContent, getCssFileContent. by rewrite Hmiss, Hdisk.
  - intros other c Hother Hnone Hsome.
    apply storeContent_keeps; auto.
Qed.

Lemma missing_style_rejects_call_witness :
  ∃ cache,
    extractStylesWithContent relativePathname diskOnlyA ∅
      (Some [routeWith (Some (IdStr "home.module")) None]) scenarioB
    = Some (Rejected CssFileNotFound, cache)
    ∧ ∀ other c,
        In other ["/a.css"; "/b.css"] →
        (∅ : gmap string string) !! other = None →
        diskOnlyA other = Some c →
        cache !! other = Some c.
Proof.
  apply (missing_style_rejects_call relativePathname diskOnlyA ∅
           (Some [routeWith (Some (IdStr "home.module")) None]) scenarioB
           ["/a.css"; "/b.css"] "/b.css").
  - by vm_compute.
  - simpl. auto.
  - reflexivity.
  - reflexivity.
Defined.

(** * Further properties of the code *)

(** ** Facts about [[...new Set(l)]], for any kind of element *)

Section SetOf.

Context {A : Type} `{EqDecision A}.

Lemma fold_Set_addOf_In (l acc : list A) (x : A) :
  In x (fold_left Set_addOf l acc) ↔ In x acc ∨ In x l.
Proof.
  revert acc; induction l as [|y l IH]; intros acc; simpl; [tauto|].
  rewrite IH. unfold Set_addOf. case_bool_decide as Hy.
  - apply list_elem_of_In in Hy. split; [tauto|].
    intros [?|[->|?]]; tauto.
  - rewrite in_app_iff. simpl. tauto.
Qed.

Lemma spreadSetOf_In (l : list A) (x : A) : In x (spreadSetOf l) ↔ In x l.
Proof. unfold spreadSetOf. rewrite fold_Set_addOf_In. simpl. tauto. Qed.

Lemma fold_Set_addOf_NoDup (l acc : list A) :
  List.NoDup acc → List.NoDup (fold_left Set_addOf l acc).
Proof.
  revert acc; induction l as [|y l IH]; intros acc Hacc; simpl; [done|].
  apply IH. unfold Set_addOf. case_bool_decide as Hy; [done|].
  apply NoDup_ListNoDup, NoDup_app. apply NoDup_ListNoDup in Hacc.
  split_and!; [done | | apply NoDup_singleton].
  intros z Hz Hz'. apply list_elem_of_singleton in Hz' as ->. done.
Qed.

Lemma spreadSetOf_NoDup (l : list A) : List.NoDup (spreadSetOf l).
Proof. apply fold_Set_addOf_NoDup. constructor. Qed.

Lemma fold_Set_addOf_prefix (l acc : list A) :
  ∃ r, fold_left Set_addOf l acc = acc ++ r
       ∧ ∀ x, In x r → ¬ In x acc.
Proof.
  revert acc; induction l as [|y l IH]; intros acc; simpl.
  - exists []. by rewrite app_nil_r.
  - unfold Set_addOf at 2. case_bool_decide as Hy; [apply IH|].
    destruct (IH (acc ++ [y])) as (r & -> & Hr).
    exists (y :: r). rewrite <-app_assoc. split; [done|].
    intros x [<-|Hx]; [by rewrite <-list_elem_of_In|].
    intros Hin. apply (Hr x Hx). apply in_app_iff. auto.
Qed.

Lemma spreadSetOf_app (l1 l2 : list A) :
  ∃ r, spreadSetOf (l1 ++ l2) = spreadSetOf l1 ++ r.
Proof.
  unfold spreadSetOf. rewrite fold_left_app.
  destruct (fold_Set_addOf_prefix l2 (fold_left Set_addOf l1 []))
    as (r & -> & _).
  eauto.
Qed.

Lemma spreadSetOf_first_seen (l1 l2 : list A) (x : A) :
  ¬ In x l1 →
  ∃ r, spreadSetOf (l1 ++ x :: l2) = spreadSetOf l1 ++ x :: r ∧ ¬ In x r.
Proof.
  intros Hx. unfold spreadSetOf. rewrite fold_left_app. cbn [fold_left].
  unfold Set_addOf at 2. rewrite bool_decide_eq_false_2.
  - destruct (fold_Set_addOf_prefix l2 (fold_left Set_addOf l1 [] ++ [x]))
      as (r & -> & Hr).
    exists r. rewrite <-app_assoc. split; [done|].
    intros Hin. apply (Hr x Hin). apply in_app_iff. simpl. auto.
  - rewrite list_elem_of_In. by rewrite (spreadSetOf_In l1 x).
Qed.

Lemma fold_Set_addOf_NoDup_id (l acc : list A) :
  List.NoDup (acc ++ l) → fold_left Set_addOf l acc = acc ++ l.
Proof.
  revert acc; induction l as [|y l IH]; intros acc Hnd; simpl.
  - by rewrite app_nil_r.
  - unfold Set_addOf. rewrite bool_decide_eq_false_2.
    + rewrite IH; rewrite <-app_assoc; done.
    + apply NoDup_remove_2 in Hnd. rewrite list_elem_of_In.
      intros Hy. apply Hnd. apply in_app_iff. auto.
Qed.

Lemma spreadSetOf_NoDup_id (l : list A) : List.NoDup l → spreadSetOf l = l.
Proof. intros Hnd. by apply (fold_Set_addOf_NoDup_id l []). Qed.

End SetOf.

Lemma spreadSet_spreadSetOf (l : list string) : spreadSet l = spreadSetOf l.
Proof. reflexivity. Qed.

(** X1. Deduplication keeps the first occurrence of each file, in place:
    when [x] first occurs after [l1], the deduplicated list is the
    deduplication of [l1], then [x], then files other than [x]; and it has
    no duplicate. *)
Theorem spreadSet_first_seen (l1 l2 : list string) (x : string) :
  ¬ In x l1 →
  List.NoDup (spreadSet (l1 ++ x :: l2))
  ∧ ∃ r, spreadSet (l1 ++ x :: l2) = spreadSet l1 ++ x :: r ∧ ¬ In x r.
Proof.
  intros Hx. split; [apply spreadSet_NoDup|].
  rewrite !spreadSet_spreadSetOf. by apply spreadSetOf_first_seen.
Qed.

Lemma spreadSet_first_seen_witness :
  List.NoDup (spreadSet (["a.js"; "b.js"; "a.js"] ++ "c.js" :: ["b.js"; "c.js"]))
  ∧ ∃ r, spreadSet (["a.js"; "b.js"; "a.js"] ++ "c.js" :: ["b.js"; "c.js"])
         = spreadSet ["a.js"; "b.js"; "a.js"] ++ "c.js" :: r
         ∧ ¬ In "c.js" r.
Proof.
  apply (spreadSet_first_seen ["a.js"; "b.js"; "a.js"] ["b.js"; "c.js"] "c.js").
  simpl. intros [H|[H|[H|[]]]]; discriminate.
Defined.

(** ** What the resolver can output *)

Section Soundness.

Variable pathname : string → option string.
Variable chunksMap : ChunksMap.
Variable ext : string.

Lemma fromMap_push (st : Acc) (p : PositionedFiles) :
  fromMap pathname chunksMap ext st →
  (∀ f, In f (batch p) →
        In f (allFiles chunksMap) ∧ hasExtension pathname f ext = true) →
  fromMap pathname chunksMap ext (push st p).
Proof.
  intros Hst Hp f. rewrite flatFiles_push, in_app_iff. intros [?|?]; auto.
Qed.

Lemma filesFromChunks_fromMap (cs : list Chunk) (f : string) :
  (∀ c, In c cs → In c (chunks chunksMap)) →
  In f (filesFromChunks pathname cs ext) →
  In f (allFiles chunksMap) ∧ hasExtension pathname f ext = true.
Proof.
  intros Hcs Hf. apply filesFromChunks_In in Hf as (c & Hc & Hf & Hext).
  split; [|done]. unfold allFiles. apply in_app_iff. right.
  apply in_concat. eexists. split; [|exact Hf].
  apply in_map_iff. exists c. auto.
Qed.

Lemma mainGroup_fromMap (st : Acc) :
  fromMap pathname chunksMap ext st →
  fromMap pathname chunksMap ext (mainGroup pathname chunksMap ext st).
Proof.
  intros Hst. unfold mainGroup. case_bool_decide; [|done].
  apply fromMap_push; [done|]. simpl. intros f Hf.
  apply filter_In in Hf as [Hf Hext]. split; [|done].
  unfold allFiles. apply in_app_iff. auto.
Qed.

Lemma coreGroup_fromMap (st : Acc) :
  fromMap pathname chunksMap ext st →
  fromMap pathname chunksMap ext (coreGroup pathname chunksMap ext st).
Proof.
  intros Hst. unfold coreGroup. case_bool_decide; [|done].
  apply fromMap_push; [done|]. simpl. intros f.
  apply filesFromChunks_fromMap. intros c Hc.
  by apply filter_In in Hc as [? _].
Qed.

Lemma pushEach_fromMap (cs : list Chunk) (st : Acc) :
  (∀ c, In c cs → In c (chunks chunksMap)) →
  fromMap pathname chunksMap ext st →
  fromMap pathname chunksMap ext (pushEach pathname cs ext st).
Proof.
  unfold pushEach. revert st; induction cs as [|c cs IH]; intros st Hcs Hst;
    [done|].
  cbn [fold_left]. apply IH; [intros; apply Hcs; simpl; auto|].
  apply fromMap_push; [done|]. simpl. intros f.
  apply filesFromChunks_fromMap. intros c' [<-|[]]. apply Hcs. simpl. auto.
Qed.

Lemma addById_fromMap (fuel : nat) (webpackId : ChunkId) (st st' : Acc) :
  fromMap pathname chunksMap ext st →
  addById pathname fuel webpackId chunksMap ext st = Some st' →
  fromMap pathname chunksMap ext st'.
Proof.
  revert webpackId st st'.
  induction fuel as [|fuel IH]; intros w st st' Hst; [done|]. simpl.
  case_bool_decide; [by intros [= <-]|].
  destruct (List.find _ _) as [idChunk|] eqn:Hfind; [|by intros [= <-]].
  apply find_some in Hfind as [Hin _].
  apply forEachM_inv.
  - apply fromMap_push; [done|]. simpl. intros f.
    apply filesFromChunks_fromMap. by intros c' [<-|[]].
  - intros x t t' _ Ht. case_bool_decide; [by apply IH | by intros [= <-]].
Qed.

Lemma routeStep_fromMap (r : LazyRouteMatch) (st st' : Acc) :
  fromMap pathname chunksMap ext st →
  routeStep pathname chunksMap ext r st = Some st' →
  fromMap pathname chunksMap ext st'.
Proof.
  intros Hst.
  assert (∀ (P : Chunk → bool) c,
            In c (List.filter P (chunks chunksMap)) → In c (chunks chunksMap))
    as Hsub by (intros P c Hc; by apply filter_In in Hc as [? _]).
  assert (fromMap pathname chunksMap ext
            (moduleGroup pathname r chunksMap ext st)) as Hm.
  { unfold moduleGroup, moduleGroupChunks.
    destruct (module (route r)) as [m|]; [|done].
    destruct (JsString.truthy m); [|done].
    apply pushEach_fromMap; [apply Hsub | done]. }
  assert (fromMap pathname chunksMap ext
            (numericGroup pathname r chunksMap ext
               (moduleGroup pathname r chunksMap ext st))) as Hn.
  { unfold numericGroup. destruct (webpack (route r)) as [[n|s]|]; try done.
    case_bool_decide; [|done]. apply pushEach_fromMap; [apply Hsub | done]. }
  unfold routeStep, stringGroup.
  destruct (webpack (route r)) as [[n|s]|]; try by intros [= <-].
  destruct (JsString.truthy s); [|by intros [= <-]].
  by apply addById_fromMap.
Qed.

(** What [extractFiles] returns on a sequence of routes: the normalized,
    deduplicated files of a final state that extends the first two groups
    and holds files of the map only. *)
Lemma extractFiles_final (routes : list LazyRouteMatch) :
  ∃ st, extractFiles pathname (Some routes) chunksMap ext
        = Some (List.map prependForwardSlash (spreadSet (flatFiles st)))
        ∧ grows (coreGroup pathname chunksMap ext
                   (mainGroup pathname chunksMap ext (mkAcc [] ∅))) st
        ∧ fromMap pathname chunksMap ext st.
Proof.
  unfold extractFiles.
  destruct (routes_return pathname chunksMap ext routes
              (coreGroup pathname chunksMap ext
                 (mainGroup pathname chunksMap ext (mkAcc [] ∅))))
    as (st & Hrun & Hg).
  rewrite Hrun. exists st. split_and!; [done..|].
  eapply (forEachM_inv _ (fromMap pathname chunksMap ext)); [| |exact Hrun].
  - apply coreGroup_fromMap, mainGroup_fromMap. by intros f [].
  - intros r t t' _. apply routeStep_fromMap.
Qed.

End Soundness.

(** X2. The resolver never invents a path and never lets a file of another
    extension through: every path of the output is the normalization of a
    file that the map lists, in its main entry or in a chunk, and that has
    the extension asked for. *)
Theorem extractFiles_sound (pathname : string → option string)
    (routes : list LazyRouteMatch) (chunksMap : ChunksMap) (ext : string)
    (out : list string) (x : string) :
  extractFiles pathname (Some routes) chunksMap ext = Some out →
  In x out →
  ∃ f, x = prependForwardSlash f
       ∧ In f (allFiles chunksMap)
       ∧ hasExtension pathname f ext = true.
Proof.
  destruct (extractFiles_final pathname chunksMap ext routes)
    as (st & -> & _ & Hst).
  intros [= <-] Hx. apply in_map_iff in Hx as (f & <- & Hf).
  apply spreadSet_In, Hst in Hf as [? ?]. eauto.
Qed.

Lemma extractFiles_sound_witness :
  ∃ f, "/a.css" = prependForwardSlash f
       ∧ In f (allFiles scenarioB)
       ∧ hasExtension relativePathname f ".css" = true.
Proof.
  apply (extractFiles_sound relativePathname
           [routeWith (Some (IdStr "home.module")) None] scenarioB ".css"
           ["/a.css"; "/b.css"] "/a.css").
  - by vm_compute.
  - simpl. auto.
Defined.

(** X3. Against a map that lists no file, as the map the server falls
    back to when the persisted one cannot be read ([{chunks: []}]), or the
    map extracted from absent statistics, every resolution returns the
    empty list, whatever the routes and the extension. *)
Theorem extractFiles_empty_map (pathname : string → option string)
    (routes : list LazyRouteMatch) (chunksMap : ChunksMap) (ext : string) :
  allFiles chunksMap = [] →
  extractFiles pathname (Some routes) chunksMap ext = Some [].
Proof.
  intros Hnone.
  destruct (extractFiles_final pathname chunksMap ext routes)
    as (st & -> & _ & Hst).
  destruct (flatFiles st) as [|f l] eqn:Hflat; [done|].
  destruct (Hst f) as [Hin _]; [rewrite Hflat; simpl; auto|].
  by rewrite Hnone in Hin.
Qed.

Lemma extractFiles_empty_map_witness :
  extractFiles relativePathname
    (Some [routeWith (Some (IdStr "home.module")) (Some "Header")])
    (mkChunksMap None []) ".js"
  = Some []
  ∧ extractFiles relativePathname
      (Some [routeWith (Some (IdNum 3)) None]) (extractChunksMap None) ".css"
    = Some [].
Proof.
  split.
  - apply (extractFiles_empty_map relativePathname
             [routeWith (Some (IdStr "home.module")) (Some "Header")]
             (mkChunksMap None []) ".js").
    reflexivity.
  - apply (extractFiles_empty_map relativePathname
             [routeWith (Some (IdNum 3)) None] (extractChunksMap None) ".css").
    reflexivity.
Defined.

Lemma prependForwardSlash_inj (p q : string) :
  JsString.startsWith p "/" = false →
  JsString.startsWith q "/" = false →
  prependForwardSlash p = prependForwardSlash q → p = q.
Proof.
  unfold prependForwardSlash. intros -> ->.
  destruct (JsString.startsWith p "http") eqn:Hp,
           (JsString.startsWith q "http") eqn:Hq; simpl; intros Heq.
  - done.
  - subst p. discriminate.
  - subst q. discriminate.
  - by injection Heq.
Qed.

(** X4. When no file of the map begins with "/", the output of the
    resolver holds each path at most once: on such file names the
    normalization is injective, so the files deduplicated before it stay
    distinct after it. *)
Theorem extractFiles_NoDup (pathname : string → option string)
    (routes : list LazyRouteMatch) (chunksMap : ChunksMap) (ext : string)
    (out : list string) :
  (∀ f, In f (allFiles chunksMap) → JsString.startsWith f "/" = false) →
  extractFiles pathname (Some routes) chunksMap ext = Some out →
  List.NoDup out.
Proof.
  intros Hrel.
  destruct (extractFiles_final pathname chunksMap ext routes)
    as (st & -> & _ & Hst).
  intros [= <-]. apply Finite.Injective_map_NoDup_in; [|apply spreadSet_NoDup].
  intros p q Hp Hq. apply prependForwardSlash_inj.
  - apply Hrel. by apply spreadSet_In, Hst in Hp as [? _].
  - apply Hrel. by apply spreadSet_In, Hst in Hq as [? _].
Qed.

Lemma extractFiles_NoDup_witness : List.NoDup ["/a.css"; "/b.css"].
Proof.
  apply (extractFiles_NoDup relativePathname
           [routeWith (Some (IdStr "home.module")) None] scenarioB ".css").
  - intros f Hf. vm_compute in Hf. by destruct Hf as [<-|[<-|[]]].
  - by vm_compute.
Defined.

Lemma flatFiles_mainGroup (pathname : string → option string)
    (chunksMap : ChunksMap) (ext : string) (st : Acc) :
  flatFiles (mainGroup pathname chunksMap ext st)
  = flatFiles st
    ++ List.filter (λ file, hasExtension pathname file ext)
         (mainAssets chunksMap).
Proof.
  unfold mainGroup. case_bool_decide as Hlen.
  - by rewrite flatFiles_push.
  - destruct (List.filter _ _); [by rewrite app_nil_r|]. simpl in Hlen. lia.
Qed.

Lemma grows_flatFiles_app (st st' : Acc) :
  grows st st' → ∃ r, flatFiles st' = flatFiles st ++ r.
Proof.
  intros [a Ha]. unfold flatFiles. rewrite Ha, map_app, concat_app. eauto.
Qed.

(** X5. The scripts of the main entry come first: when the main entry
    lists no file twice, the output of [extractScripts] begins with the
    list that [extractMainScript] returns, whatever the routes. *)
Theorem extractMainScript_prefix (pathname : string → option string)
    (routes : list LazyRouteMatch) (chunksMap : ChunksMap) :
  List.NoDup (mainAssets chunksMap) →
  ∃ rest,
    extractScripts pathname (Some routes) chunksMap
    = Some (extractMainScript pathname chunksMap ++ rest).
Proof.
  intros Hnd. unfold extractScripts.
  destruct (extractFiles_final pathname chunksMap ".js" routes)
    as (st & -> & Hg & _).
  assert (grows (mainGroup pathname chunksMap ".js" (mkAcc [] ∅)) st) as Hg'
    by (eapply grows_trans; [apply coreGroup_grows | exact Hg]).
  apply grows_flatFiles_app in Hg' as [r ->].
  rewrite flatFiles_mainGroup. cbn [flatFiles positionedFiles List.map concat app].
  rewrite spreadSet_spreadSetOf.
  destruct (spreadSetOf_app
              (List.filter (λ file, hasExtension pathname file ".js")
                 (mainAssets chunksMap)) r) as [r' ->].
  rewrite spreadSetOf_NoDup_id by (by apply List.NoDup_filter).
  rewrite map_app. eauto.
Qed.

Lemma extractMainScript_prefix_witness :
  ∃ rest,
    extractScripts relativePathname (Some [routeWith None (Some "Header")])
      scenarioA
    = Some (extractMainScript relativePathname scenarioA ++ rest).
Proof.
  apply (extractMainScript_prefix relativePathname
           [routeWith None (Some "Header")] scenarioA).
  apply NoDup_ListNoDup. vm_compute.
  repeat (constructor; [by rewrite list_elem_of_In; simpl; intuition discriminate|]).
  constructor.
Defined.

Lemma routeStep_unannotated (pathname : string → option string)
    (chunksMap : ChunksMap) (ext : string) (r : LazyRouteMatch) (st : Acc) :
  unannotated r = true →
  routeStep pathname chunksMap ext r st = Some st.
Proof.
  unfold unannotated, routeStep, stringGroup, numericGroup, moduleGroup.
  intros [Hm Hw]%andb_true_iff.
  destruct (module (route r)) as [m|].
  - apply negb_true_iff in Hm. rewrite Hm.
    destruct (webpack (route r)) as [[n|s]|]; [| |done].
    + apply bool_decide_eq_true in Hw. by rewrite bool_decide_eq_false_2 by lia.
    + apply negb_true_iff in Hw. by rewrite Hw.
  - destruct (webpack (route r)) as [[n|s]|]; [| |done].
    + apply bool_decide_eq_true in Hw. by rewrite bool_decide_eq_false_2 by lia.
    + apply negb_true_iff in Hw. by rewrite Hw.
Qed.

(** X6. A matched route that carries no annotation, or only falsy ones
    (an empty [module], a [webpack] that is 0 or the empty string),
    contributes nothing and is no error: the output is the one obtained
    without these routes. *)
Theorem extractFiles_skips_unannotated (pathname : string → option string)
    (routes : list LazyRouteMatch) (chunksMap : ChunksMap) (ext : string) :
  extractFiles pathname (Some routes) chunksMap ext
  = extractFiles pathname
      (Some (List.filter (λ r, negb (unannotated r)) routes)) chunksMap ext.
Proof.
  unfold extractFiles.
  generalize (coreGroup pathname chunksMap ext
                (mainGroup pathname chunksMap ext (mkAcc [] ∅))).
  induction routes as [|r routes IH]; intros st; [done|].
  cbn [List.filter]. destruct (unannotated r) eqn:Hr; cbn [negb forEachM].
  - rewrite routeStep_unannotated by done. apply IH.
  - destruct (routeStep pathname chunksMap ext r st); [apply IH | done].
Qed.

(** ** What the traversal visits *)

Lemma descendant_trans (chunksMap : ChunksMap) (w x i : ChunkId) :
  descendant chunksMap w x → descendant chunksMap x i →
  descendant chunksMap w i.
Proof.
  intros Hwx Hxi. induction Hxi as [|i j _ IH Hstep]; [done|].
  by eapply descendant_child.
Qed.

Section Exploration.

Variable pathname : string → option string.
Variable chunksMap : ChunksMap.
Variable ext : string.

Lemma explores_refl (w : ChunkId) (st : Acc) :
  explores pathname chunksMap ext w st st.
Proof.
  split_and!; [done | intros i ? ?; done |].
  exists []. rewrite app_nil_r. split; [done | intros b []].
Qed.

Lemma explores_trans (w x : ChunkId) (st1 st2 st3 : Acc) :
  descendant chunksMap w x →
  explores pathname chunksMap ext w st1 st2 →
  explores pathname chunksMap ext x st2 st3 →
  explores pathname chunksMap ext w st1 st3.
Proof.
  intros Hwx (Hsub & Hnew & a & Ha & Hadded) (Hsub' & Hnew' & b & Hb & Hadded').
  split_and!; [set_solver | |].
  - intros i Hi3 Hi1. destruct (decide (i ∈ extractedAssets st2)) as [Hi2|Hi2].
    + destruct (Hnew i Hi2 Hi1) as (Hd & Hclosed & Hbatch).
      split_and!; [done | intros j Hj; apply Hsub'; auto |].
      intros c Hc. rewrite Hb. apply in_app_iff. auto.
    + destruct (Hnew' i Hi3 Hi2) as (Hd & Hclosed & Hbatch).
      split_and!; [by eapply descendant_trans | done | done].
  - exists (a ++ b). rewrite Hb, Ha, <-app_assoc. split; [done|].
    intros p [Hp|Hp]%in_app_iff.
    + destruct (Hadded p Hp) as (i & c & Hi2 & Hi1 & Hc & ->).
      exists i, c. split_and!; [set_solver | done..].
    + destruct (Hadded' p Hp) as (i & c & Hi3 & Hi2 & Hc & ->).
      exists i, c. split_and!; [done | set_solver | done..].
Qed.

(** A call that returns has visited its root, and explored from it. *)
Lemma addById_explores (fuel : nat) (w : ChunkId) (st st' : Acc) :
  addById pathname fuel w chunksMap ext st = Some st' →
  explores pathname chunksMap ext w st st' ∧ w ∈ extractedAssets st'.
Proof.
  revert w st st'. induction fuel as [|fuel IH]; intros w st st'; [done|].
  simpl. case_bool_decide as Hseen.
  { intros [= <-]. split; [apply explores_refl | done]. }
  destruct (List.find _ _) as [c0|] eqn:Hfind.
  2:{ intros [= <-]. simpl. split; [|set_solver].
      split_and!; simpl; [set_solver | |].
      - intros i Hi Hi'. assert (i = w) as -> by set_solver.
        split_and!; [constructor | |].
        + intros j (c & Hc & _). congruence.
        + intros c Hc. congruence.
      - exists []. rewrite app_nil_r. split; [done | intros b []]. }
  set (st1 := push _ _).
  assert (∀ l s s',
            extractedAssets st1 ⊆ extractedAssets s →
            (∀ x, In x l → childOf chunksMap w x) →
            explores pathname chunksMap ext w st1 s →
            forEachM
              (λ childId st,
                 if bool_decide (childId ≠ w)
                 then addById pathname fuel childId chunksMap ext st
                 else Some st) l s = Some s' →
            explores pathname chunksMap ext w st1 s'
            ∧ extractedAssets s ⊆ extractedAssets s'
            ∧ ∀ x, In x l → x ∈ extractedAssets s') as Hloop.
  { induction l as [|x l IHl]; intros s s' Hs Hl Hex; simpl.
    - intros [= <-]. split_and!; [done | done | intros x []].
    - case_bool_decide as Hx.
      + destruct (addById pathname fuel x chunksMap ext s) as [t|] eqn:Hcall;
          [|done].
        apply IH in Hcall as [Hxt Hxin]. intros Hrest.
        assert (descendant chunksMap w x) as Hdx.
        { eapply descendant_child; [constructor|]. apply Hl. simpl. auto. }
        pose proof (explores_trans w x st1 s t Hdx Hex Hxt) as Hwt.
        destruct Hxt as (Hst & _).
        apply IHl in Hrest as (Hfinal & Hts & Hall);
          [| set_solver | intros; apply Hl; simpl; auto | done].
        split_and!; [done | set_solver |].
        intros y [<-|Hy]; [set_solver | auto].
      + intros Hrest. assert (x = w) as -> by (by destruct (decide (x = w))).
        apply IHl in Hrest as (Hfinal & Hts & Hall);
          [| done | intros; apply Hl; simpl; auto | done].
        split_and!; [done | done |].
        intros y [<-|Hy]; [|auto]. apply Hts, Hs. subst st1. simpl. set_solver. }
  intros Hrun.
  apply Hloop in Hrun as ((Hsub & Hnew & added & Hadded & Hbatches) & _ & Hkids);
    [| done | | apply explores_refl].
  2:{ intros x Hx. by exists c0. }
  assert (w ∈ extractedAssets st') as Hw
    by (apply Hsub; subst st1; simpl; set_solver).
  split; [|done]. subst st1. simpl in *. split_and!; [set_solver | |].
  - intros i Hi Hi'. destruct (decide (i = w)) as [->|Hne].
    + split_and!; [constructor | |].
      * intros j (c & Hc & Hj). apply Hkids. congruence.
      * intros c Hc. rewrite Hadded. apply in_app_iff. left.
        apply in_app_iff. right. simpl. left. congruence.
    + apply Hnew; [done | set_solver].
  - exists (mkPositionedFiles (filesFromChunks pathname [c0] ext) :: added).
    rewrite Hadded, <-app_assoc. split; [done|].
    intros b [<-|Hb].
    + exists w, c0. split_and!; done.
    + destruct (Hbatches b Hb) as (i & c & ? & ? & ? & ->).
      exists i, c. split_and!; [done | set_solver | done..].
Qed.

End Exploration.

(** X7. Started with an empty visited set, the traversal visits exactly
    the descendants of its starting id (the ids reached from it through
    the [children] of the chunks found), it pushes the batch of every
    chunk found for a descendant, and it pushes nothing else: an id for
    which no chunk is found adds no batch. *)
Theorem addById_visits_descendants (pathname : string → option string)
    (chunksMap : ChunksMap) (ext : string) (fuel : nat) (w : ChunkId)
    (pushed : list PositionedFiles) (st' : Acc) :
  addById pathname fuel w chunksMap ext (mkAcc pushed ∅) = Some st' →
  (∀ i, i ∈ extractedAssets st' ↔ descendant chunksMap w i)
  ∧ (∀ i c,
       descendant chunksMap w i →
       List.find (λ chunk, bool_decide (id chunk = Some i)) (chunks chunksMap)
       = Some c →
       In (mkPositionedFiles (filesFromChunks pathname [c] ext))
         (positionedFiles st'))
  ∧ ∃ added,
      positionedFiles st' = pushed ++ added
      ∧ ∀ b,
          In b added →
          ∃ i c,
            descendant chunksMap w i
            ∧ List.find (λ chunk, bool_decide (id chunk = Some i))
                (chunks chunksMap) = Some c
            ∧ b = mkPositionedFiles (filesFromChunks pathname [c] ext).
Proof.
  intros Hrun.
  apply addById_explores in Hrun as ((_ & Hnew & added & Hadded & Hb) & Hw).
  simpl in *.
  assert (∀ i, descendant chunksMap w i → i ∈ extractedAssets st') as Hall.
  { intros i Hi. induction Hi as [|i j _ IH Hstep]; [done|].
    destruct (Hnew i IH) as (_ & Hclosed & _); [set_solver|]. auto. }
  split_and!.
  - intros i. split; [|apply Hall].
    intros Hi. by destruct (Hnew i Hi) as (? & _); [set_solver|].
  - intros i c Hi Hc.
    destruct (Hnew i (Hall i Hi)) as (_ & _ & Hbatch); [set_solver|]. auto.
  - exists added. split; [done|]. intros b Hin.
    destruct (Hb b Hin) as (i & c & Hi & _ & Hc & ->).
    exists i, c. split_and!; [|done..].
    by destruct (Hnew i Hi) as (? & _); [set_solver|].
Qed.

Lemma addById_visits_descendants_witness :
  (∀ i, i ∈ extractedAssets visitedFromB ↔ descendant scenarioB (IdNum 2) i)
  ∧ (∀ i c,
       descendant scenarioB (IdNum 2) i →
       List.find (λ chunk, bool_decide (id chunk = Some i)) (chunks scenarioB)
       = Some c →
       In (mkPositionedFiles (filesFromChunks relativePathname [c] ".css"))
         (positionedFiles visitedFromB))
  ∧ ∃ added,
      positionedFiles visitedFromB = [] ++ added
      ∧ ∀ b,
          In b added →
          ∃ i c,
            descendant scenarioB (IdNum 2) i
            ∧ List.find (λ chunk, bool_decide (id chunk = Some i))
                (chunks scenarioB) = Some c
            ∧ b = mkPositionedFiles (filesFromChunks relativePathname [c] ".css").
Proof.
  apply (addById_visits_descendants relativePathname scenarioB ".css"
           (budget scenarioB) (IdNum 2) [] visitedFromB).
  by vm_compute.
Defined.

(** ** The chunk-graph extractor *)

Lemma NoDup_omap_inj {A B : Type} (f : A → option B) (l : list A) :
  (∀ x y z, f x = Some z → f y = Some z → x = y) →
  List.NoDup l → List.NoDup (omap f l).
Proof.
  intros Hinj Hnd. induction Hnd as [|x l Hx Hnd IH]; [constructor|].
  cbn [omap list_omap]. destruct (f x) as [z|] eqn:Hfx; [|done].
  constructor; [|done].
  rewrite <-list_elem_of_In, list_elem_of_omap. intros (y & Hy & Hfy).
  apply Hx. rewrite (Hinj x y z Hfx Hfy). by apply list_elem_of_In.
Qed.

Lemma collectReasons_In (asset : Stats.Chunk) (r : string) :
  In r (collectReasons asset)
  ↔ r ≠ "" ∧ In (VStr r) (reasonValues Stats.userRequest asset).
Proof.
  unfold collectReasons.
  rewrite <-list_elem_of_In, list_elem_of_omap. split.
  - intros (v & Hv & Hs). destruct v; try done. injection Hs as ->.
    apply list_elem_of_In, spreadSetOf_In, filter_In in Hv as [Hin Ht].
    split; [|done]. intros ->. done.
  - intros [Hne Hin]. exists (VStr r). split; [|done].
    apply list_elem_of_In, spreadSetOf_In, filter_In. split; [done|].
    simpl. unfold JsString.truthy. by rewrite bool_decide_eq_false_2.
Qed.

Lemma collectReasons_NoDup (asset : Stats.Chunk) :
  List.NoDup (collectReasons asset).
Proof.
  apply NoDup_omap_inj; [|apply spreadSetOf_NoDup].
  intros [] [] z; simpl; congruence.
Qed.

Lemma collectReasonModules_In (asset : Stats.Chunk) (i : ChunkId) :
  In i (collectReasonModules asset)
  ↔ i ≠ IdNum 0 ∧ i ≠ IdStr ""
    ∧ ∃ v, asChunkId v = Some i ∧ In v (reasonValues Stats.moduleId asset).
Proof.
  unfold collectReasonModules.
  rewrite <-list_elem_of_In, list_elem_of_omap. split.
  - intros (v & Hv & Hi).
    apply list_elem_of_In, spreadSetOf_In, filter_In in Hv as [Hin Ht].
    split_and!; [| |eauto].
    + intros ->. by destruct v as [| |n|s]; simplify_eq/=.
    + intros ->. by destruct v as [| |n|s]; simplify_eq/=.
  - intros (Hz & He & v & Hv & Hin). exists v. split; [|done].
    apply list_elem_of_In, spreadSetOf_In, filter_In. split; [done|].
    destruct v as [| |n|s]; simplify_eq/=.
    + apply negb_true_iff, Z.eqb_neq. congruence.
    + unfold JsString.truthy. apply negb_true_iff, bool_decide_eq_false_2.
      congruence.
Qed.

Lemma collectReasonModules_NoDup (asset : Stats.Chunk) :
  List.NoDup (collectReasonModules asset).
Proof.
  apply NoDup_omap_inj; [|apply spreadSetOf_NoDup].
  intros [] [] z; simpl; congruence.
Qed.

(** X8. Every chunk of an extracted map carries the three derived
    fields: [reasons] holds each non-empty string request of the chunk
    once and nothing else, [reasonsStr] is [reasons] joined by "||" (so it
    is never absent), and [reasonModules] holds each truthy module id
    once. The map has one chunk per chunk of the statistics, and absent
    statistics give the map with no chunk and an empty name table. *)
Theorem extractChunksMap_wellformed (webpackStats : option Stats.Json)
    (c : Chunk) :
  In c (chunks (extractChunksMap webpackStats)) →
  (∃ asset rs ms,
     In asset (default [] (webpackStats ≫= Stats.chunks))
     ∧ id c = Stats.id asset ∧ files c = Stats.files asset
     ∧ children c = Stats.children asset
     ∧ reasons c = Some rs ∧ reasonsStr c = Some (join "||" rs)
     ∧ reasonModules c = Some ms
     ∧ List.NoDup rs
     ∧ (∀ r, In r rs
             ↔ r ≠ "" ∧ In (VStr r) (reasonValues Stats.userRequest asset))
     ∧ List.NoDup ms
     ∧ (∀ i, In i ms
             ↔ i ≠ IdNum 0 ∧ i ≠ IdStr ""
               ∧ ∃ v, asChunkId v = Some i
                      ∧ In v (reasonValues Stats.moduleId asset)))
  ∧ List.length (chunks (extractChunksMap webpackStats))
    = List.length (default [] (webpackStats ≫= Stats.chunks))
  ∧ extractChunksMap None = mkChunksMap (Some ∅) [].
Proof.
  intros Hc. split_and!; [|apply length_map|done].
  apply in_map_iff in Hc as (asset & <- & Hasset).
  exists asset, (collectReasons asset), (collectReasonModules asset).
  split_and!; try done.
  - apply collectReasons_NoDup.
  - apply collectReasons_In.
  - apply collectReasonModules_NoDup.
  - apply collectReasonModules_In.
Qed.

Lemma extractChunksMap_wellformed_witness :
  (∃ asset rs ms,
     In asset (default [] (Some statsExample ≫= Stats.chunks))
     ∧ id extractedExample = Stats.id asset
     ∧ files extractedExample = Stats.files asset
     ∧ children extractedExample = Stats.children asset
     ∧ reasons extractedExample = Some rs
     ∧ reasonsStr extractedExample = Some (join "||" rs)
     ∧ reasonModules extractedExample = Some ms
     ∧ List.NoDup rs
     ∧ (∀ r, In r rs
             ↔ r ≠ "" ∧ In (VStr r) (reasonValues Stats.userRequest asset))
     ∧ List.NoDup ms
     ∧ (∀ i, In i ms
             ↔ i ≠ IdNum 0 ∧ i ≠ IdStr ""
               ∧ ∃ v, asChunkId v = Some i
                      ∧ In v (reasonValues Stats.moduleId asset)))
  ∧ List.length (chunks (extractChunksMap (Some statsExample)))
    = List.length (default [] (Some statsExample ≫= Stats.chunks))
  ∧ extractChunksMap None = mkChunksMap (Some ∅) [].
Proof.
  apply (extractChunksMap_wellformed (Some statsExample) extractedExample).
  left. by vm_compute.
Defined.

(** ** Delimited reasons *)

Module JoinFacts.
Import JsString JsStringFacts.

(** An occurrence of a string that begins with [c] cannot begin inside a
    prefix free of [c]. *)
Lemma append_split_free (c : ascii) (r t pre rest : string) :
  hasChar c r = false →
  r ^^ t = pre ^^ String c rest →
  ∃ pre', pre = r ^^ pre' ∧ t = pre' ^^ String c rest.
Proof.
  revert pre; induction r as [|a r IH]; intros pre Hfree Heq; simpl in *.
  - by exists pre.
  - apply orb_false_iff in Hfree as [Ha Hfree].
    apply bool_decide_eq_false in Ha.
    destruct pre as [|b pre]; simpl in Heq; injection Heq as -> Heq; [done|].
    destruct (IH pre Hfree Heq) as (pre' & -> & ->). by exists pre'.
Qed.

(** Two strings free of [c], each followed by the end or by [c], are
    equal when one is a prefix of the other up to [c]. *)
Lemma append_eq_free (c : ascii) (r m X Y : string) :
  hasChar c r = false → hasChar c m = false →
  X = "" ∨ (∃ X', X = String c X') →
  r ^^ X = m ^^ String c Y →
  r = m ∧ X = String c Y.
Proof.
  revert m; induction r as [|a r IH]; intros m Hr Hm HX Heq; simpl in *.
  - destruct m as [|b m]; simpl in *; [done|].
    apply orb_false_iff in Hm as [Hb _]. apply bool_decide_eq_false in Hb.
    destruct HX as [->|[X' ->]]; [done|]. by injection Heq as -> _.
  - apply orb_false_iff in Hr as [Ha Hr]. apply bool_decide_eq_false in Ha.
    destruct m as [|b m]; simpl in *; injection Heq as -> Heq; [done|].
    apply orb_false_iff in Hm as [_ Hm].
    destruct (IH m Hr Hm HX Heq) as [-> ->]. done.
Qed.

Lemma join_cons (sep x y : string) (l : list string) :
  join sep (x :: y :: l) = x ^^ sep ^^ join sep (y :: l).
Proof. reflexivity. Qed.

(** What follows the first element of a joined list. *)
Lemma join_head (y : string) (l : list string) :
  ∃ X, join "||" (y :: l) = y ^^ X
       ∧ (X = "" ∨ ∃ X', X = String "|" X')
       ∧ (l = [] → X = "")
       ∧ (l ≠ [] → X = "||" ^^ join "||" l).
Proof.
  destruct l as [|z l].
  - exists "". simpl. rewrite append_nil_r. split_and!; auto. done.
  - exists ("||" ^^ join "||" (z :: l)). rewrite join_cons.
    split_and!; [done | right; by eexists | done | done].
Qed.

Lemma join_eq_nil (l : list string) :
  ¬ In "" l → join "||" l = "" → l = [].
Proof.
  destruct l as [|x [|y l]]; [done | |].
  - simpl. intros Hne ->. destruct Hne. auto.
  - rewrite join_cons. intros Hne Heq. apply append_eq_nil in Heq as [-> _].
    destruct Hne. simpl. auto.
Qed.

(** In a joined list of non-empty reasons free of '|', a delimited name
    free of '|' occurs exactly when the name is a reason that is neither
    the first nor the last. *)
Lemma occursIn_join (m : string) (l : list string) :
  (∀ r, In r l → hasChar "|" r = false ∧ r ≠ "") →
  hasChar "|" m = false →
  occursIn ("||" ^^ m ^^ "||") (join "||" l)
  ↔ ∃ l1 l2, l = l1 ++ m :: l2 ∧ l1 ≠ [] ∧ l2 ≠ [].
Proof.
  intros Hl Hm. induction l as [|x l IH].
  { split.
    - intros (pre & suf & Heq). by destruct pre.
    - intros (l1 & l2 & Heq & _). by destruct l1. }
  destruct l as [|y l].
  { split.
    - intros (pre & suf & Heq). cbn [join append] in Heq.
      destruct (Hl x) as [Hx _]; [simpl; auto|].
      rewrite <-(append_nil_r x) in Heq.
      apply append_split_free in Heq as (pre' & _ & Heq); [|done].
      by destruct pre'.
    - intros (l1 & l2 & Heq & Hl1 & Hl2).
      destruct l1 as [|a [|b l1]], l2; simplify_eq/=. }
  assert (∀ r, In r (y :: l) → hasChar "|" r = false ∧ r ≠ "") as Hl'
    by (intros; apply Hl; simpl in *; tauto).
  specialize (IH Hl'). rewrite join_cons.
  destruct (join_head y l) as (X & HJ & HX & Hnil & Hcons).
  destruct (Hl x) as [Hx _]; [simpl; auto|].
  destruct (Hl y) as [Hy Hyne]; [simpl; auto|].
  rewrite HJ in IH |- *. clear HJ. split.
  - intros (pre & suf & Heq). cbn [append] in Heq.
    apply append_split_free in Heq as (pre' & _ & Heq); [|done].
    destruct pre' as [|a [|b p3]]; cbn [append] in Heq.
    + injection Heq as Heq. rewrite append_assoc in Heq.
      apply append_eq_free in Heq as [-> HXeq]; [|done..].
      exists [x], l. split_and!; [done | done |].
      intros ->. by rewrite Hnil in HXeq.
    + injection Heq as Ha Heq. subst a.
      destruct y as [|c y]; [done|]. cbn [append hasChar] in *.
      injection Heq as Hc _. subst c.
      rewrite bool_decide_eq_true_2 in Hy by done. discriminate.
    + injection Heq as Ha Hb Heq. subst a b.
      destruct IH as [IH _].
      destruct IH as (l1 & l2 & Hsplit & Hl1 & Hl2).
      { exists p3, suf. exact Heq. }
      exists (x :: l1), l2. rewrite Hsplit. done.
  - intros (l1 & l2 & Heq & Hl1 & Hl2).
    destruct l1 as [|a l1]; [done|]. injection Heq as <- Heq.
    destruct l1 as [|b l1].
    + cbn [app] in Heq. injection Heq as <- <-.
      rewrite Hcons by done.
      exists x, (join "||" l). cbn [append]. by rewrite !append_assoc.
    + destruct IH as [_ IH]. destruct IH as (pre & suf & ->).
      { exists (b :: l1), l2. done. }
      exists (x ^^ "||" ^^ pre), suf. by rewrite !append_assoc.
Qed.

End JoinFacts.

(** X9. On a chunk produced by the extractor, whose reasons and the
    module name are free of the character '|', the per-route module-name
    test succeeds exactly when the module name is one of the reasons of
    the chunk other than the first and the last: the joined [reasonsStr]
    has no delimiter before its first reason and none after its last. *)
Theorem moduleMatches_extracted (asset : Stats.Chunk) (m : string) :
  (∀ r, In r (collectReasons asset) → hasChar "|" r = false) →
  hasChar "|" m = false →
  moduleMatches m (extractChunk asset) = true
  ↔ ∃ l1 l2, collectReasons asset = l1 ++ m :: l2 ∧ l1 ≠ [] ∧ l2 ≠ [].
Proof.
  intros Hfree Hm. rewrite moduleMatches_spec. simpl.
  apply JoinFacts.occursIn_join; [|done].
  intros r Hr. split; [by apply Hfree|].
  by apply collectReasons_In in Hr as [? _].
Qed.

Lemma moduleMatches_extracted_witness :
  moduleMatches "Header" extractedExample = true
  ↔ ∃ l1 l2, ["./app"; "Header"; "Footer"] = l1 ++ "Header" :: l2
             ∧ l1 ≠ [] ∧ l2 ≠ [].
Proof.
  apply (moduleMatches_extracted
           (Stats.mkChunk (Some (IdNum 7)) (Some ["home"]) (Some ["home.js"])
              None None
              (Some
                 [Stats.mkMod
                    (Some
                       [Stats.mkReason (VStr "./app") (VNum 1);
                        Stats.mkReason (VStr "Header") (VNum 2);
                        Stats.mkReason VUndefined VNull]);
                  Stats.mkMod None;
                  Stats.mkMod
                    (Some
                       [Stats.mkReason (VStr "Header") (VNum 2);
                        Stats.mkReason (VStr "") (VNum 0);
                        Stats.mkReason (VStr "Footer") (VStr "m3")])]))
           "Header").
  - intros r Hr. vm_compute in Hr. by destruct Hr as [<-|[<-|[<-|[]]]].
  - reflexivity.
Defined.

(** X10. A chunk produced by the extractor is one of the core chunks
    exactly when no non-empty string request explains it, or when its
    joined reasons mention "@currentProject" or "@reactpwa". *)
Theorem isCurrentProjectChunk_extracted (asset : Stats.Chunk) :
  isCurrentProjectChunk (extractChunk asset) = true
  ↔ collectReasons asset = []
    ∨ occursIn "@currentProject" (join "||" (collectReasons asset))
    ∨ occursIn "@reactpwa" (join "||" (collectReasons asset)).
Proof.
  unfold isCurrentProjectChunk, reasonsStrIndexOf. simpl.
  rewrite !orb_true_iff, !negb_true_iff, !Z.eqb_neq, bool_decide_eq_true.
  rewrite !JsStringFacts.indexOf_spec. unfold occursIn.
  assert (Some (join "||" (collectReasons asset)) = Some ""
          ↔ collectReasons asset = []) as ->; [|tauto].
  split.
  - intros [= Heq]. apply JoinFacts.join_eq_nil in Heq; [done|].
    intros Hin. by apply collectReasons_In in Hin as [? _].
  - by intros ->.
Qed.

(** ** The style-content fetcher, call after call *)

Section FetcherFacts.

Variable disk : string → option string.
Variable cssContentMap : gmap string string.

Lemma storeContent_cached (cssFiles : list string) (cache : gmap string string)
    (k v : string) :
  is_Some (cssContentMap !! k) → cache !! k = Some v →
  fold_left (storeContent disk cssContentMap) cssFiles cache !! k = Some v.
Proof.
  intros [v0 Hk]. revert cache.
  induction cssFiles as [|x l IH]; intros cache Hv; simpl; [done|].
  apply IH. unfold storeContent.
  destruct (cssContentMap !! x) eqn:Hx; [done|].
  destruct (getCssFileContent disk x); [|done].
  rewrite lookup_insert_ne; [done | congruence].
Qed.

Lemma storeContent_nothing_new (d : string → option string)
    (cssFiles : list string) (cache : gmap string string) :
  (∀ f, In f cssFiles → is_Some (cssContentMap !! f)) →
  fold_left (storeContent d cssContentMap) cssFiles cache = cache.
Proof.
  revert cache. induction cssFiles as [|x l IH]; intros cache Hall; [done|].
  simpl. destruct (Hall x) as [v Hv]; [simpl; auto|].
  unfold storeContent at 2. rewrite Hv. apply IH.
  intros; apply Hall; simpl; auto.
Qed.

Lemma styleWithContent_outcome (cssFile : string) :
  match styleWithContent disk cssContentMap cssFile with
  | Fulfilled p =>
      href p = cssFile
      ∧ (cssContentMap !! cssFile = Some (content p)
         ∨ cssContentMap !! cssFile = None ∧ disk cssFile = Some (content p))
  | Rejected e => cssContentMap !! cssFile = None ∧ disk cssFile = None
  end.
Proof.
  unfold styleWithContent, getCssFileContent.
  destruct (cssContentMap !! cssFile); [simpl; auto|].
  destruct (disk cssFile); simpl; auto.
Qed.

End FetcherFacts.




(** ** The environment variables of a bundle *)

Lemma filterEnv_lookup {V : Type} (l : list (string * V))
    (acc : gmap string V) (k : string) :
  NoDup l.*1 →
  fold_left
    (λ (acc : gmap string V) (entry : string * V),
       if negb (JsString.startsWith entry.1 "_PRIVATE_")
       then <[entry.1 := entry.2]> acc
       else acc) l acc !! k
  = if JsString.startsWith k "_PRIVATE_" then acc !! k
    else match (list_to_map l : gmap string V) !! k with
         | Some v => Some v
         | None => acc !! k
         end.
Proof.
  revert acc. induction l as [|[k' v'] l IH]; intros acc Hnd.
  - cbn [fold_left]. rewrite list_to_map_nil, lookup_empty.
    by destruct (JsString.startsWith k "_PRIVATE_").
  - apply NoDup_cons in Hnd as [Hk' Hnd]. cbn [fold_left fst snd].
    rewrite IH by done. rewrite list_to_map_cons.
    destruct (JsString.startsWith k "_PRIVATE_") eqn:Hk.
    + destruct (JsString.startsWith k' "_PRIVATE_") eqn:Hpriv; [done|].
      cbn [negb]. rewrite lookup_insert_ne; [done | congruence].
    + destruct (decide (k' = k)) as [->|Hne].
      * rewrite Hk. cbn [negb]. rewrite !lookup_insert_eq.
        by rewrite (not_elem_of_list_to_map_1 _ _ Hk').
      * rewrite (lookup_insert_ne (list_to_map l)) by done.
        destruct (list_to_map l !! k); [done|].
        destruct (JsString.startsWith k' "_PRIVATE_"); [done|].
        cbn [negb]. by rewrite lookup_insert_ne.
Qed.


(** ** The cache header of static files *)

Lemma indexOf_from_range (i : Z) (s t : string) :
  JsString.indexOf_from i s t = -1 ∨ i ≤ JsString.indexOf_from i s t.
Proof.
  revert i; induction s as [|a s IH]; intros i; cbn [JsString.indexOf_from].
  - destruct (JsString.startsWith "" t); lia.
  - destruct (JsString.startsWith (String a s) t); [lia|].
    destruct (IH (i + 1)); lia.
Qed.

Lemma indexOf_zero (s t : string) :
  JsString.indexOf s t = 0 ↔ JsString.startsWith s t = true.
Proof.
  unfold JsString.indexOf.
  destruct s as [|a s]; cbn [JsString.indexOf_from];
    destruct (JsString.startsWith _ t); split; try done; try lia.
  intros Hz. destruct (indexOf_from_range (0 + 1) s t); lia.
Qed.

(** X14. A static file gets the one-year immutable [Cache-Control] header
    exactly when its path does not begin with "/build/" and does not
    contain "sw.js"; otherwise the headers are left as they are. A path
    that does not contain "/build/" at all therefore gets the header, and
    a path that begins with "/build/" does not. *)
Theorem setHeaders_spec (res : gmap string string) (pathname : string) :
  ∃ cached : bool,
    (cached = true
     ↔ JsString.startsWith pathname "/build/" = false
       ∧ ¬ occursIn "sw.js" pathname)
    ∧ setHeaders res pathname
      = if cached
        then <["Cache-Control" := "public, max-age=31536000, immutable"]> res
        else res.
Proof.
  unfold setHeaders, truthyNumber.
  exists (negb (JsString.indexOf pathname "/build/" =? 0)
          && (JsString.indexOf pathname "sw.js" =? -1)).
  split; [|done].
  rewrite andb_true_iff, negb_true_iff, Z.eqb_neq, Z.eqb_eq.
  rewrite <-(JsStringFacts.indexOf_spec pathname "sw.js").
  rewrite indexOf_zero.
  destruct (JsString.startsWith pathname "/build/"),
           (decide (JsString.indexOf pathname "sw.js" = -1));
    intuition congruence.
Qed.

(** ** Per-route numeric-id group *)

Lemma Array_indexOf_from_spec (i : Z) (l : list ChunkId) (x : ChunkId) :
  0 ≤ i → Array_indexOf_from i l x ≠ -1 ↔ In x l.
Proof.
  revert i; induction l as [|y l IH]; intros i Hi; simpl; [tauto|].
  case_bool_decide as Hy.
  - split; [auto | lia].
  - rewrite IH by lia. split; [auto|]. by intros [?|?].
Qed.

(** X15. For a route that carries a non-zero numeric [webpack] id, the
    group pushes one batch per selected chunk, in the order of the map;
    a chunk is selected exactly when its [reasonModules] is absent or
    holds that number (as a number: the string of the same digits does
    not count). A route whose numeric id is 0 pushes nothing. *)
Theorem numericGroup_selection (pathname : string → option string)
    (chunksMap : ChunksMap) (ext : string) (st : Acc) (n : Z)
    (m : option string) :
  n ≠ 0 →
  (∃ selected,
     sublist selected (chunks chunksMap)
     ∧ (∀ c,
          In c selected
          ↔ In c (chunks chunksMap)
            ∧ match reasonModules c with
              | Some l => In (IdNum n) l
              | None => True
              end)
     ∧ positionedFiles
         (numericGroup pathname (routeWith (Some (IdNum n)) m) chunksMap ext st)
       = positionedFiles st
         ++ List.map
              (λ c, mkPositionedFiles
                      (List.filter (λ file, hasExtension pathname file ext)
                         (default [] (files c))))
              selected)
  ∧ numericGroup pathname (routeWith (Some (IdNum 0)) m) chunksMap ext st = st.
Proof.
  intros Hn. split; [|done].
  exists (List.filter
            (λ chunk, notMinusOne (reasonModulesIndexOf chunk (IdNum n)))
            (chunks chunksMap)).
  split_and!.
  - apply filter_sublist.
  - intros c. rewrite filter_In. unfold reasonModulesIndexOf.
    destruct (reasonModules c) as [l|]; simpl; [|tauto].
    rewrite negb_true_iff, Z.eqb_neq.
    unfold Array_indexOf. by rewrite Array_indexOf_from_spec.
  - unfold numericGroup, routeWith. simpl.
    rewrite bool_decide_eq_true_2 by done.
    destruct (pushEach_batches pathname
                (List.filter
                   (λ chunk, notMinusOne (reasonModulesIndexOf chunk (IdNum n)))
                   (chunks chunksMap)) ext st) as [-> _].
    f_equal. apply map_ext. intros c. unfold filesFromChunks. simpl.
    by rewrite app_nil_r.
Qed.

Lemma numericGroup_selection_witness :
  (∃ selected,
     sublist selected (chunks (extractChunksMap (Some statsExample)))
     ∧ (∀ c,
          In c selected
          ↔ In c (chunks (extractChunksMap (Some statsExample)))
            ∧ match reasonModules c with
              | Some l => In (IdNum 2) l
              | None => True
              end)
     ∧ positionedFiles
         (numericGroup relativePathname (routeWith (Some (IdNum 2)) None)
            (extractChunksMap (Some statsExample)) ".js" (mkAcc [] ∅))
       = positionedFiles (mkAcc [] ∅)
         ++ List.map
              (λ c, mkPositionedFiles
                      (List.filter
                         (λ file, hasExtension relativePathname file ".js")
                         (default [] (files c))))
              selected)
  ∧ numericGroup relativePathname (routeWith (Some (IdNum 0)) None)
      (extractChunksMap (Some statsExample)) ".js" (mkAcc [] ∅)
    = mkAcc [] ∅.
Proof.
  apply (numericGroup_selection relativePathname
           (extractChunksMap (Some statsExample)) ".js" (mkAcc [] ∅) 2 None).
  lia.
Defined.

(** ** Canonical chunk id, once more *)

Module CanonicalFacts.
Import JsString.

Lemma replaceDotSlash_idem (a : ascii) :
  replaceDotSlash (replaceDotSlash a) = replaceDotSlash a.
Proof.
  unfold replaceDotSlash.
  destruct (bool_decide (a = "."%char ∨ a = "/"%char)) eqn:Ha.
  - by rewrite bool_decide_eq_false_2 by (intros [?|?]; discriminate).
  - by rewrite Ha.
Qed.

Lemma map_replaceDotSlash_idem (s : string) :
  map replaceDotSlash (map replaceDotSlash s) = map replaceDotSlash s.
Proof.
  induction s as [|a s IH]; simpl; [done|].
  by rewrite replaceDotSlash_idem, IH.
Qed.

Lemma map_dropLeading (f : ascii → ascii) (c : ascii) (s : string) :
  map f s = s → map f (dropLeading c s) = dropLeading c s.
Proof.
  induction s as [|a s IH]; simpl; [done|]. intros Heq.
  injection Heq as Ha Hs. case_bool_decide; [auto|]. simpl. by rewrite Ha, Hs.
Qed.

Lemma map_dropTrailing (f : ascii → ascii) (c : ascii) (s : string) :
  map f s = s → map f (dropTrailing c s) = dropTrailing c s.
Proof.
  induction s as [|a s IH]; simpl; [done|]. intros Heq.
  injection Heq as Ha Hs. specialize (IH Hs).
  destruct (dropTrailing c s) as [|b r].
  - case_bool_decide; [done|]. simpl. by rewrite Ha.
  - cbn [map] in *. by rewrite Ha, IH.
Qed.

Lemma dropLeading_id (c : ascii) (s : string) :
  startsWith s (String c "") = false → dropLeading c s = s.
Proof.
  destruct s as [|a s]; simpl; [done|].
  case_bool_decide; [done|]. done.
Qed.

Lemma dropTrailing_id (c : ascii) (s : string) :
  last s ≠ Some c → dropTrailing c s = s.
Proof.
  induction s as [|a s IH]; [done|]. cbn [dropTrailing last].
  destruct s as [|b s].
  - intros Ha. simpl. rewrite bool_decide_eq_false_2; [done | congruence].
  - intros Hlast. by rewrite IH.
Qed.

End CanonicalFacts.

(** X16. Canonicalization is idempotent: the canonical id of a canonical
    id is that id. *)
Theorem canonicalId_idempotent (s : string) :
  canonicalId (canonicalId s) = canonicalId s.
Proof.
  assert (JsString.map replaceDotSlash (canonicalId s) = canonicalId s) as Hfix.
  { unfold canonicalId.
    apply CanonicalFacts.map_dropTrailing, CanonicalFacts.map_dropLeading,
      CanonicalFacts.map_replaceDotSlash_idem. }
  unfold canonicalId at 1. rewrite Hfix. unfold canonicalId.
  destruct (JsStringFacts.dropLeading_spec "_"
              (JsString.map replaceDotSlash s)) as (n & _ & Hlead).
  destruct (JsStringFacts.dropTrailing_spec "_"
              (JsString.dropLeading "_" (JsString.map replaceDotSlash s)))
    as (m & _ & Htrail).
  rewrite CanonicalFacts.dropLeading_id
    by (by apply JsStringFacts.dropTrailing_startsWith).
  by apply CanonicalFacts.dropTrailing_id.
Qed.

(** ** Resolution, route after route *)

Lemma forEachM_app {A S : Type} (f : A → S → option S) (l1 l2 : list A)
    (s : S) :
  forEachM f (l1 ++ l2) s
  = match forEachM f l1 s with
    | Some t => forEachM f l2 t
    | None => None
    end.
Proof.
  revert s; induction l1 as [|x l1 IH]; intros s; simpl; [done|].
  destruct (f x s); [apply IH | done].
Qed.

(** X17. Resolution is incremental: the output for a sequence of routes
    followed by further routes begins with the output for the sequence
    alone; further routes only append paths. *)
Theorem extractFiles_app (pathname : string → option string)
    (routes more : list LazyRouteMatch) (chunksMap : ChunksMap) (ext : string) :
  ∃ out rest,
    extractFiles pathname (Some routes) chunksMap ext = Some out
    ∧ extractFiles pathname (Some (routes ++ more)) chunksMap ext
      = Some (out ++ rest).
Proof.
  unfold extractFiles. rewrite forEachM_app.
  destruct (routes_return pathname chunksMap ext routes
              (coreGroup pathname chunksMap ext
                 (mainGroup pathname chunksMap ext (mkAcc [] ∅))))
    as (st & -> & _).
  destruct (routes_return pathname chunksMap ext more st) as (st' & -> & Hg).
  apply grows_flatFiles_app in Hg as [r ->].
  rewrite (spreadSet_spreadSetOf (flatFiles st ++ r)).
  destruct (spreadSetOf_app (flatFiles st) r) as [r' ->].
  rewrite map_app. eauto.
Qed.

(** ** What the resolver outputs, exactly *)

Lemma isCurrentProjectChunk_spec (c : Chunk) :
  isCurrentProjectChunk c = true ↔ coreChunk c.
Proof.
  unfold isCurrentProjectChunk, reasonsStrIndexOf, coreChunk.
  destruct (reasonsStr c) as [t|]; simpl; [|done].
  rewrite !orb_true_iff, !negb_true_iff, !Z.eqb_neq, bool_decide_eq_true.
  rewrite !JsStringFacts.indexOf_spec. unfold occursIn.
  split; [intros [[?|?]|[= ?]] | intros [->|[?|?]]]; auto.
Qed.

Lemma flatFiles_coreGroup (pathname : string → option string)
    (chunksMap : ChunksMap) (ext : string) (st : Acc) :
  flatFiles (coreGroup pathname chunksMap ext st)
  = flatFiles st
    ++ filesFromChunks pathname (currentProjectChunks chunksMap) ext.
Proof.
  unfold coreGroup. case_bool_decide as Hlen.
  - by rewrite flatFiles_push.
  - destruct (filesFromChunks _ _ _); [by rewrite app_nil_r|].
    simpl in Hlen. lia.
Qed.

Section Selection.

Variable pathname : string → option string.
Variable chunksMap : ChunksMap.
Variable ext : string.

Local Abbreviation batchOf c :=
  (mkPositionedFiles (filesFromChunks pathname [c] ext)).

Lemma visitedClosed_pushEach (cs : list Chunk) (st : Acc) :
  visitedClosed pathname chunksMap ext st →
  visitedClosed pathname chunksMap ext (pushEach pathname cs ext st).
Proof.
  intros Hst i Hi.
  destruct (pushEach_batches pathname cs ext st) as [Hpf HV].
  rewrite HV in Hi |- *. destruct (Hst i Hi) as [Hkids Hbatch].
  split; [done|]. intros c Hc. rewrite Hpf. apply in_app_iff. auto.
Qed.

Lemma visitedClosed_addById (fuel : nat) (w : ChunkId) (st st' : Acc) :
  visitedClosed pathname chunksMap ext st →
  addById pathname fuel w chunksMap ext st = Some st' →
  visitedClosed pathname chunksMap ext st'
  ∧ ∀ i, descendant chunksMap w i → i ∈ extractedAssets st'.
Proof.
  intros Hst Hrun.
  apply addById_explores in Hrun as ((Hsub & Hnew & added & Hadded & _) & Hw).
  assert (visitedClosed pathname chunksMap ext st') as Hst'.
  { intros i Hi. destruct (decide (i ∈ extractedAssets st)) as [Hold|Hfresh].
    - destruct (Hst i Hold) as [Hkids Hbatch]. split.
      + intros j Hj. apply Hsub. auto.
      + intros c Hc. rewrite Hadded. apply in_app_iff. auto.
    - destruct (Hnew i Hi Hfresh) as (_ & Hkids & Hbatch). done. }
  split; [done|]. intros i Hi.
  induction Hi as [|i j _ IH Hstep]; [done|].
  destruct (Hst' i IH) as [Hkids _]. auto.
Qed.

(** One route: what it pushes is what it selects. *)
Lemma routeStep_selects (r : LazyRouteMatch) (st st' : Acc) :
  visitedClosed pathname chunksMap ext st →
  routeStep pathname chunksMap ext r st = Some st' →
  visitedClosed pathname chunksMap ext st'
  ∧ ∃ new,
      positionedFiles st' = positionedFiles st ++ new
      ∧ (∀ b, In b new → ∃ c, routeSelects chunksMap r c ∧ b = batchOf c)
      ∧ (∀ c, routeSelects chunksMap r c → In (batchOf c) (positionedFiles st')).
Proof.
  intros Hst. unfold routeStep.
  set (stm := moduleGroup pathname r chunksMap ext st).
  set (stn := numericGroup pathname r chunksMap ext stm).
  (* the module-name group *)
  assert (visitedClosed pathname chunksMap ext stm
          ∧ ∃ new,
              positionedFiles stm = positionedFiles st ++ new
              ∧ ∀ b, In b new
                     ↔ ∃ c m, module (route r) = Some m ∧ m ≠ ""
                              ∧ In c (moduleGroupChunks m chunksMap)
                              ∧ b = batchOf c) as (Hcm & newm & Hpm & Hnewm).
  { subst stm. unfold moduleGroup.
    destruct (module (route r)) as [m|] eqn:Hmod.
    2:{ split; [done|]. exists []. rewrite app_nil_r. split; [done|].
        intros b. split; [done | by intros (c & m & ? & _)]. }
    unfold JsString.truthy. case_bool_decide as Hm; simpl.
    { split; [done|]. exists []. rewrite app_nil_r. split; [done|].
      intros b. split; [done | intros (c & m' & [= <-] & ? & _); done]. }
    split; [by apply visitedClosed_pushEach|].
    eexists. split; [apply pushEach_batches|].
    intros b. rewrite in_map_iff. split.
    - intros (c & <- & Hc). exists c, m. done.
    - intros (c & m' & [= <-] & _ & Hc & ->). eauto. }
  (* the numeric-id group *)
  assert (visitedClosed pathname chunksMap ext stn
          ∧ ∃ new,
              positionedFiles stn = positionedFiles stm ++ new
              ∧ ∀ b, In b new
                     ↔ ∃ c n, webpack (route r) = Some (IdNum n) ∧ n ≠ 0
                              ∧ In c (List.filter
                                        (λ chunk,
                                           notMinusOne
                                             (reasonModulesIndexOf chunk
                                                (IdNum n)))
                                        (chunks chunksMap))
                              ∧ b = batchOf c) as (Hcn & newn & Hpn & Hnewn).
  { subst stn. unfold numericGroup.
    destruct (webpack (route r)) as [[n|s]|] eqn:Hweb.
    2,3: (split; [done|]; exists []; rewrite app_nil_r; split; [done|];
          intros b; split; [done | by intros (c & n & ? & _)]).
    case_bool_decide as Hn.
    2:{ split; [done|]. exists []. rewrite app_nil_r. split; [done|].
        intros b. split; [done | intros (c & n' & [= <-] & ? & _); done]. }
    split; [by apply visitedClosed_pushEach|].
    eexists. split; [apply pushEach_batches|].
    intros b. rewrite in_map_iff. split.
    - intros (c & <- & Hc). exists c, n. done.
    - intros (c & n' & [= <-] & _ & Hc & ->). eauto. }
  (* the string-id group *)
  unfold stringGroup. intros Hrun.
  assert (visitedClosed pathname chunksMap ext st'
          ∧ ∃ new,
              positionedFiles st' = positionedFiles stn ++ new
              ∧ (∀ b, In b new →
                      ∃ c s i, webpack (route r) = Some (IdStr s) ∧ s ≠ ""
                               ∧ descendant chunksMap (IdStr (canonicalId s)) i
                               ∧ List.find
                                   (λ chunk, bool_decide (id chunk = Some i))
                                   (chunks chunksMap) = Some c
                               ∧ b = batchOf c)
              ∧ (∀ c s i, webpack (route r) = Some (IdStr s) → s ≠ "" →
                          descendant chunksMap (IdStr (canonicalId s)) i →
                          List.find
                            (λ chunk, bool_decide (id chunk = Some i))
                            (chunks chunksMap) = Some c →
                          In (batchOf c) (positionedFiles st')))
    as (Hcs & news & Hps & Hnews & Hall).
  { destruct (webpack (route r)) as [[n|s]|] eqn:Hweb.
    1,3: (injection Hrun as <-; split; [done|]; exists [];
          rewrite app_nil_r; split_and!; [done | intros b [] | done]).
    unfold JsString.truthy in Hrun. case_bool_decide as Hs; cbn [negb] in Hrun.
    { injection Hrun as <-. split; [done|]. exists []. rewrite app_nil_r.
      split_and!; [done | intros b [] |].
      intros c s' i [= <-]. done. }
    destruct (visitedClosed_addById _ _ _ _ Hcn Hrun) as [Hclosed Hdesc].
    split; [done|].
    apply addById_explores in Hrun as ((_ & Hnew & added & Hadded & Hb) & _).
    exists added. split_and!; [done | |].
    - intros b Hin. destruct (Hb b Hin) as (i & c & Hi & Hfresh & Hc & ->).
      destruct (Hnew i Hi Hfresh) as (Hd & _). exists c, s, i. done.
    - intros c s' i [= <-] _ Hd Hc.
      destruct (Hclosed i (Hdesc i Hd)) as [_ Hbatch]. auto. }
  split; [done|]. exists (newm ++ newn ++ news).
  split_and!; [by rewrite Hps, Hpn, Hpm, <-!app_assoc | |].
  - intros b [Hb|[Hb|Hb]%in_app_iff]%in_app_iff.
    + apply Hnewm in Hb as (c & m & Hmod & Hm & Hc & ->).
      exists c. split; [|done]. left. exists m.
      apply filter_In in Hc as [Hc Hmatch].
      by apply moduleMatches_spec in Hmatch.
    + apply Hnewn in Hb as (c & n & Hweb & Hn & Hc & ->).
      exists c. split; [|done]. right. left. exists n.
      apply filter_In in Hc as [Hc Hmatch]. split_and!; [done..|].
      unfold reasonModulesIndexOf in Hmatch.
      destruct (reasonModules c) as [l|]; [|done]. simpl in Hmatch.
      apply negb_true_iff, Z.eqb_neq in Hmatch.
      by apply Array_indexOf_from_spec in Hmatch.
    + apply Hnews in Hb as (c & s & i & Hweb & Hs & Hd & Hc & ->).
      exists c. split; [|done]. right. right. exists s, i. done.
  - intros c [(m & Hmod & Hm & Hc & Hmatch)
              |[(n & Hweb & Hn & Hc & Hmatch)|(s & i & Hweb & Hs & Hd & Hc)]].
    + rewrite Hps, Hpn, Hpm. apply in_app_iff. left. apply in_app_iff. left.
      apply in_app_iff. right. apply Hnewm. exists c, m. split_and!; [done..| |done].
      apply filter_In. split; [done|]. by apply moduleMatches_spec.
    + rewrite Hps, Hpn. apply in_app_iff. left. apply in_app_iff. right.
      apply Hnewn. exists c, n. split_and!; [done..| |done].
      apply filter_In. split; [done|]. unfold reasonModulesIndexOf.
      destruct (reasonModules c) as [l|]; [|done]. simpl.
      apply negb_true_iff, Z.eqb_neq. by apply Array_indexOf_from_spec.
    + eauto.
Qed.

(** The routes, one after the other. *)
Lemma routes_select (routes : list LazyRouteMatch) (st st' : Acc) :
  visitedClosed pathname chunksMap ext st →
  forEachM (routeStep pathname chunksMap ext) routes st = Some st' →
  ∃ new,
    positionedFiles st' = positionedFiles st ++ new
    ∧ (∀ b, In b new →
            ∃ r c, In r routes ∧ routeSelects chunksMap r c ∧ b = batchOf c)
    ∧ (∀ r c, In r routes → routeSelects chunksMap r c →
              In (batchOf c) (positionedFiles st')).
Proof.
  revert st. induction routes as [|r routes IH]; intros st Hst; simpl.
  - intros [= <-]. exists []. rewrite app_nil_r.
    split_and!; [done | intros b [] | intros r c []].
  - destruct (routeStep pathname chunksMap ext r st) as [t|] eqn:Hstep;
      [|done].
    apply routeStep_selects in Hstep as (Ht & new & Hpt & Hnew & Hall); [|done].
    intros Hrest. destruct (IH t Ht Hrest) as (new' & Hp' & Hnew' & Hall').
    exists (new ++ new').
    split_and!; [by rewrite Hp', Hpt, <-app_assoc | |].
    + intros b [Hb|Hb]%in_app_iff.
      * destruct (Hnew b Hb) as (c & ? & ->). exists r, c. auto.
      * destruct (Hnew' b Hb) as (r' & c & ? & ? & ->). exists r', c. auto.
    + intros r' c [<-|Hr'] Hsel.
      * rewrite Hp'. apply in_app_iff. left. by apply Hall.
      * by apply (Hall' r' c).
Qed.

End Selection.

Lemma flatFiles_In (st : Acc) (f : string) :
  In f (flatFiles st) ↔ ∃ b, In b (positionedFiles st) ∧ In f (batch b).
Proof.
  unfold flatFiles. rewrite in_concat. split.
  - intros (l & Hl & Hf). apply in_map_iff in Hl as (b & <- & Hb). eauto.
  - intros (b & Hb & Hf). exists (batch b). split; [|done].
    apply in_map_iff. eauto.
Qed.

(** X18. The output of the resolver, as a set: a path is in the output
    exactly when it is the normalization of a file that has the extension
    and that the main entry lists, or that belongs to a core chunk of the
    map or to a chunk that one of the routes selects (through its module
    name, its numeric id, or its string id and the descendants of the
    canonical form of that id). *)
Theorem extractFiles_exact (pathname : string → option string)
    (routes : list LazyRouteMatch) (chunksMap : ChunksMap) (ext : string)
    (out : list string) (x : string) :
  extractFiles pathname (Some routes) chunksMap ext = Some out →
  In x out
  ↔ ∃ f,
      x = prependForwardSlash f
      ∧ hasExtension pathname f ext = true
      ∧ (In f (mainAssets chunksMap)
         ∨ ∃ c,
             In f (default [] (files c))
             ∧ (In c (chunks chunksMap) ∧ coreChunk c
                ∨ ∃ r, In r routes ∧ routeSelects chunksMap r c)).
Proof.
  unfold extractFiles.
  set (st2 := coreGroup pathname chunksMap ext
                (mainGroup pathname chunksMap ext (mkAcc [] ∅))).
  destruct (forEachM _ routes st2) as [st'|] eqn:Hrun; [|done].
  intros [= <-].
  assert (visitedClosed pathname chunksMap ext st2) as Hclosed.
  { assert (extractedAssets st2 = ∅) as Hempty.
    { subst st2. unfold coreGroup, mainGroup.
      repeat case_bool_decide; reflexivity. }
    intros i Hi. rewrite Hempty in Hi. set_solver. }
  destruct (routes_select pathname chunksMap ext routes st2 st' Hclosed Hrun)
    as (new & Hpf & Hnew & Hall).
  assert (∀ f c, In f (batch (mkPositionedFiles
                                (filesFromChunks pathname [c] ext)))
                 ↔ In f (default [] (files c))
                   ∧ hasExtension pathname f ext = true) as Hbatch.
  { intros f c. simpl. rewrite filesFromChunks_In. split.
    - by intros (c' & [<-|[]] & ? & ?).
    - intros [? ?]. exists c. simpl. auto. }
  assert (∀ f, In f (flatFiles st2)
               ↔ hasExtension pathname f ext = true
                 ∧ (In f (mainAssets chunksMap)
                    ∨ ∃ c, In f (default [] (files c))
                           ∧ In c (chunks chunksMap) ∧ coreChunk c)) as Hbase.
  { intros f. subst st2. rewrite flatFiles_coreGroup, flatFiles_mainGroup.
    cbn [flatFiles positionedFiles List.map concat app].
    rewrite in_app_iff, filter_In, filesFromChunks_In. split.
    - intros [[? ?]|(c & Hc & ? & ?)]; [auto|].
      apply filter_In in Hc as [? Hcore].
      apply isCurrentProjectChunk_spec in Hcore. split; [done|]. right. eauto.
    - intros [Hext [?|(c & ? & ? & Hcore)]]; [auto|]. right. exists c.
      split_and!; [|done..]. apply filter_In. split; [done|].
      by apply isCurrentProjectChunk_spec. }
  rewrite in_map_iff. split.
  - intros (f & <- & Hf). exists f. split; [done|].
    apply spreadSet_In, flatFiles_In in Hf as (b & Hb & Hf).
    rewrite Hpf in Hb. apply in_app_iff in Hb as [Hb|Hb].
    + assert (In f (flatFiles st2)) as Hin by (apply flatFiles_In; eauto).
      apply Hbase in Hin as [Hext [?|(c & ? & ? & ?)]]; [auto|].
      split; [done|]. right. exists c. auto.
    + destruct (Hnew b Hb) as (r & c & Hr & Hsel & ->).
      apply Hbatch in Hf as [? ?]. split; [done|]. right. exists c.
      split; [done|]. right. eauto.
  - intros (f & -> & Hext & Hf). exists f. split; [done|].
    apply spreadSet_In.
    destruct Hf as [Hmain|(c & Hfc & [[Hc Hcore]|(r & Hr & Hsel)])].
    + apply flatFiles_In.
      assert (In f (flatFiles st2)) as Hin by (apply Hbase; auto).
      apply flatFiles_In in Hin as (b & Hb & Hfb). exists b.
      rewrite Hpf, in_app_iff. auto.
    + assert (In f (flatFiles st2)) as Hin by (apply Hbase; eauto 6).
      apply flatFiles_In in Hin as (b & Hb & Hfb). apply flatFiles_In.
      exists b. rewrite Hpf, in_app_iff. auto.
    + apply flatFiles_In. eexists. split; [by apply (Hall r c)|].
      by apply Hbatch.
Qed.

Lemma extractFiles_exact_witness :
  In "/a.css" ["/a.css"; "/b.css"]
  ↔ ∃ f,
      "/a.css" = prependForwardSlash f
      ∧ hasExtension relativePathname f ".css" = true
      ∧ (In f (mainAssets scenarioB)
         ∨ ∃ c,
             In f (default [] (files c))
             ∧ (In c (chunks scenarioB) ∧ coreChunk c
                ∨ ∃ r, In r [routeWith (Some (IdStr "home.module")) None]
                       ∧ routeSelects scenarioB r c)).
Proof.
  apply (extractFiles_exact relativePathname
           [routeWith (Some (IdStr "home.module")) None] scenarioB ".css"
           ["/a.css"; "/b.css"] "/a.css").
  by vm_compute.
Defined.
